(** * Voice streaming session client (voice.py): model and properties

    The development follows src/07-voice-orchestration/voice.py:
    - [Audio]: the playback queue of [AudioPlayerAsync] and its pull callback;
    - [Py]: the Python values and string operations the client relies on;
    - [Receive]: the receive-and-dispatch loop [receive_audio_and_playback];
    - [Client]: [AsyncAzureVoiceLive] (credential checks, URL and headers)
      and [AsyncVoiceLiveConnection];
    - [Json]: [json.dumps], [json.loads] and the [session.update] event of
      [AsyncVoiceLiveSessionResource.update];
    - [Coordinator]: the session [AgentVoice.connect] sends and the tail
      that supervises the three activities;
    - [Examples]: instances of the library calls the receive loop is
      stated over, and sample frames.
    Definitions come first, the properties after them. *)

From Stdlib Require Import ZArith List String Ascii Bool Lia.
From Stdlib Require DecimalString DecimalPos DecimalN.
From Stdlib.Strings Require Import Byte.
From stdpp Require Import gmap strings list.
From Equations Require Import Equations.
Import ListNotations.

#[local] Set Warnings "-register-all".

(** ** Playback buffer *)

Module Audio.

(** A sample is a [np.int16]; a chunk is a one-dimensional array of them. *)
Definition sample := Z.
Definition chunk := list sample.

(** One little-endian signed 16-bit sample, as [np.frombuffer] reads it. *)
Definition int16_of_bytes (lo hi : byte) : sample :=
  let u := (Z.of_N (Byte.to_N lo) + 256 * Z.of_N (Byte.to_N hi))%Z in
  if (u <? 32768)%Z then u else (u - 65536)%Z.

(** [np.frombuffer(data, dtype=np.int16)]; [None] is the [ValueError] numpy
    raises when the buffer size is not a multiple of the element size. *)
Fixpoint frombuffer_int16 (data : list byte) : option chunk :=
  match data with
  | [] => Some []
  | [_] => None
  | lo :: hi :: rest =>
      match frombuffer_int16 rest with
      | Some c => Some (int16_of_bytes lo hi :: c)
      | None => None
      end
  end.

(** [self.queue], [self.playing], and the two facts about [self.stream]
    (an [sd.OutputStream]) the class changes: started and closed. *)
Record AudioPlayerAsync := mkPlayer {
  queue : list chunk;
  playing : bool;
  stream_active : bool;
  stream_closed : bool }.

(** [AudioPlayerAsync.__init__] *)
Definition new_player : AudioPlayerAsync :=
  {| queue := []; playing := false; stream_active := false; stream_closed := false |}.

(** The [while] loop of [callback], lines 228-233: [data] is what was
    gathered so far, [q] is [self.queue].  The popped item is cut at
    [frames_needed = frames - len(data)]; what is left of it goes back to
    the head of the queue. *)
Equations? drain (frames : nat) (data : chunk) (q : list chunk) : chunk * list chunk
  by wf ((frames - length data) + length q)%nat lt :=
  drain frames data q with decide (length data < frames)%nat => {
    | right _ := (data, q);
    | left _ with q => {
       | [] := (data, []);
       | item :: rest with decide (frames - length data < length item)%nat => {
          | left _ := drain frames (data ++ firstn (frames - length data) item)
                        (skipn (frames - length data) item :: rest);
          | right _ := drain frames (data ++ firstn (frames - length data) item) rest } } }.
Proof.
  all: rewrite ?length_app, ?length_firstn; simpl; lia.
Qed.

(** [callback(outdata, frames, time, status)]: returns what is written to
    [outdata] and the player afterwards. *)
Definition callback (p : AudioPlayerAsync) (frames : nat) : chunk * AudioPlayerAsync :=
  let '(data, q) := drain frames [] (queue p) in
  let data :=
    if decide (length data < frames)%nat
    then data ++ repeat 0%Z (frames - length data)
    else data in
  (data, {| queue := q; playing := playing p;
            stream_active := stream_active p; stream_closed := stream_closed p |}).

(** [start] *)
Definition start (p : AudioPlayerAsync) : AudioPlayerAsync :=
  {| queue := queue p; playing := true;
     stream_active := true; stream_closed := stream_closed p |}.

(** [add_data(data)]; [None] when [np.frombuffer] raises. *)
Definition add_data (p : AudioPlayerAsync) (data : list byte) : option AudioPlayerAsync :=
  match frombuffer_int16 data with
  | None => None
  | Some np_data =>
      let p' := {| queue := queue p ++ [np_data]; playing := playing p;
                   stream_active := stream_active p; stream_closed := stream_closed p |} in
      Some (if playing p' then p' else start p')
  end.

(** [stop] *)
Definition stop (p : AudioPlayerAsync) : AudioPlayerAsync :=
  {| queue := []; playing := false;
     stream_active := false; stream_closed := stream_closed p |}.

(** [terminate] *)
Definition terminate (p : AudioPlayerAsync) : AudioPlayerAsync :=
  {| queue := queue p; playing := playing p;
     stream_active := stream_active p; stream_closed := true |}.

(** A run of [add_data] calls, stopping at the first one that raises. *)
Fixpoint add_all (p : AudioPlayerAsync) (pushed : list (list byte)) : option AudioPlayerAsync :=
  match pushed with
  | [] => Some p
  | data :: rest =>
      match add_data p data with
      | Some p' => add_all p' rest
      | None => None
      end
  end.

(** The arrays a run of pushes decodes to. *)
Fixpoint decode_all (pushed : list (list byte)) : option (list chunk) :=
  match pushed with
  | [] => Some []
  | data :: rest =>
      match frombuffer_int16 data, decode_all rest with
      | Some c, Some cs => Some (c :: cs)
      | _, _ => None
      end
  end.

End Audio.

(** ** Python values and string operations *)

Module Py.

(** The values the client handles: what [json.loads] returns, what
    [json.dumps] is given.  A [float] is kept as the text [float.__repr__]
    prints for it (["0.5"], ["1e-07"], ["nan"], ["inf"]); a [dict] has
    string keys and is kept in insertion order; a [set] is only ever handed
    to [json.dumps]. *)
Inductive pyval :=
| PNone
| PBool (b : bool)
| PInt (n : Z)
| PFloat (repr : string)
| PStr (s : string)
| PList (items : list pyval)
| PDict (items : list (string * pyval))
| PSet (items : list pyval).

(** Induction on a value, with the property at hand for every item of a
    list, dict or set. *)
Section Induction.
Variable P : pyval -> Prop.
Hypothesis HNone : P PNone.
Hypothesis HBool : forall b, P (PBool b).
Hypothesis HInt : forall n, P (PInt n).
Hypothesis HFloat : forall repr, P (PFloat repr).
Hypothesis HStr : forall s, P (PStr s).
Hypothesis HList : forall items, Forall P items -> P (PList items).
Hypothesis HDict : forall items, Forall (fun kv => P (snd kv)) items -> P (PDict items).
Hypothesis HSet : forall items, Forall P items -> P (PSet items).

Fixpoint pyval_nested_ind (v : pyval) : P v :=
  match v with
  | PNone => HNone
  | PBool b => HBool b
  | PInt n => HInt n
  | PFloat repr => HFloat repr
  | PStr s => HStr s
  | PList items =>
      HList items
        ((fix go (l : list pyval) : Forall P l :=
            match l with
            | [] => @List.Forall_nil _ P
            | x :: rest => @List.Forall_cons _ P x rest (pyval_nested_ind x) (go rest)
            end) items)
  | PDict items =>
      HDict items
        ((fix go (l : list (string * pyval)) : Forall (fun kv => P (snd kv)) l :=
            match l with
            | [] => @List.Forall_nil _ _
            | kv :: rest =>
                @List.Forall_cons _ (fun kv => P (snd kv)) kv rest (pyval_nested_ind (snd kv)) (go rest)
            end) items)
  | PSet items =>
      HSet items
        ((fix go (l : list pyval) : Forall P l :=
            match l with
            | [] => @List.Forall_nil _ P
            | x :: rest => @List.Forall_cons _ P x rest (pyval_nested_ind x) (go rest)
            end) items)
  end.
End Induction.

(** [d[key]] on the items of a dict. *)
Fixpoint assoc (key : string) (items : list (string * pyval)) : option pyval :=
  match items with
  | [] => None
  | (k, v) :: rest => if String.eqb k key then Some v else assoc key rest
  end.

(** [obj.get(key, default)]; [None] is the [AttributeError] raised when
    [obj] is not a dict. *)
Definition py_get (obj : pyval) (key : string) (default : pyval) : option pyval :=
  match obj with
  | PDict items => Some (match assoc key items with Some v => v | None => default end)
  | _ => None
  end.

(** [obj == name] for a string literal [name]. *)
Definition is_str (obj : pyval) (name : string) : bool :=
  match obj with
  | PStr s => String.eqb s name
  | _ => false
  end.

(** How an f-string prints an optional string. *)
Definition fmt (o : option string) : string :=
  match o with
  | Some s => s
  | None => "None"
  end.

(** [o is not None] *)
Definition present {A : Type} (o : option A) : bool :=
  match o with
  | Some _ => true
  | None => false
  end.

(** Truth value of an optional string: [None] and [""] are false. *)
Definition truthy (o : option string) : bool :=
  match o with
  | Some s => negb (String.eqb s "")
  | None => false
  end.

(** [s.rstrip('/')], on the reversed string and back. *)
Fixpoint lstrip_slash (l : list ascii) : list ascii :=
  match l with
  | c :: rest => if Ascii.eqb c "/" then lstrip_slash rest else l
  | [] => []
  end.

Definition rstrip_slash (s : string) : string :=
  string_of_list_ascii (rev (lstrip_slash (rev (list_ascii_of_string s)))).

(** [s.replace(old, new)] for a non-empty [old]: occurrences are replaced
    left to right and do not overlap.  [skip] counts the characters of a
    replaced occurrence still to be passed over. *)
Fixpoint replace_from (old new : string) (skip : nat) (s : string) : string :=
  match s with
  | EmptyString => EmptyString
  | String c rest =>
      match skip with
      | S k => replace_from old new k rest
      | O =>
          if String.prefix old s
          then new +:+ replace_from old new (String.length old - 1) rest
          else String c (replace_from old new 0 rest)
      end
  end.

Definition str_replace (old new s : string) : string := replace_from old new 0 s.

(** [url.replace("https://", "wss://")] *)
Definition to_wss (s : string) : string := str_replace "https://" "wss://" s.

(** A character that does not occur in [old]. *)
Fixpoint absent (b : ascii) (old : string) : Prop :=
  match old with
  | EmptyString => True
  | String o rest => o <> b /\ absent b rest
  end.

(** [needle in s] *)
Fixpoint contains (needle s : string) : bool :=
  String.prefix needle s ||
  match s with
  | EmptyString => false
  | String _ rest => contains needle rest
  end.

End Py.

(** ** The receive-and-dispatch loop *)

Module Receive.
Import Audio Py.

Inductive Status := Running | Finished.

Inductive LogRecord :=
| LogInfo (msg : string)
| LogError (msg : string).

(** The locals of [receive_audio_and_playback], what it printed and logged,
    and whether it is still inside its [while True]. *)
Record ReceiveState := mkReceive {
  last_audio_item_id : pyval;
  transcript : string;
  audio_player : AudioPlayerAsync;
  stdout : list string;
  log : list LogRecord;
  status : Status }.

Definition set_transcript (t : string) (s : ReceiveState) : ReceiveState :=
  mkReceive (last_audio_item_id s) t (audio_player s) (stdout s) (log s) (status s).

Definition set_last (v : pyval) (s : ReceiveState) : ReceiveState :=
  mkReceive v (transcript s) (audio_player s) (stdout s) (log s) (status s).

Definition set_player (p : AudioPlayerAsync) (s : ReceiveState) : ReceiveState :=
  mkReceive (last_audio_item_id s) (transcript s) p (stdout s) (log s) (status s).

Definition print (line : string) (s : ReceiveState) : ReceiveState :=
  mkReceive (last_audio_item_id s) (transcript s) (audio_player s)
            (stdout s ++ [line]) (log s) (status s).

Definition logger (r : LogRecord) (s : ReceiveState) : ReceiveState :=
  mkReceive (last_audio_item_id s) (transcript s) (audio_player s)
            (stdout s) (log s ++ [r]) (status s).

(** How the body of the [async for] leaves: on to the next event, out of
    the [async for] by [break], or out of the [try] by an exception. *)
Inductive Flow := Continue | Break | Raise.

Section Loop.

(** Library calls of the loop, left open: [json.loads] on a text frame
    ([None]: [json.JSONDecodeError]), [base64.b64decode] on a string
    ([None]: it raises), and [!=] on two decoded values. *)
Variable json_loads : string -> option pyval.
Variable b64decode : string -> option (list byte).
Variable py_ne : pyval -> pyval -> bool.

(** Lines 299-308, for a decoded [event]. *)
Definition dispatch (s : ReceiveState) (event : pyval) : Flow * ReceiveState :=
  match py_get event "type" PNone with
  | None => (Raise, s)
  | Some ty =>
      if is_str ty "response.audio.delta" then
        match py_get event "item_id" PNone, py_get event "delta" (PStr "") with
        | Some item_id, Some (PStr delta) =>
            let s1 := if py_ne item_id (last_audio_item_id s)
                      then set_last item_id s else s in
            match b64decode delta with
            | Some bytes_data =>
                match add_data (audio_player s1) bytes_data with
                | Some p => (Continue, set_player p s1)
                | None => (Raise, s1)
                end
            | None => (Raise, s1)
            end
        | Some item_id, Some _ =>
            (Raise, if py_ne item_id (last_audio_item_id s)
                    then set_last item_id s else s)
        | _, _ => (Raise, s)
        end
      else if is_str ty "response.audio_transcript.delta" then
        match py_get event "delta" (PStr "") with
        | Some (PStr delta) => (Continue, set_transcript (transcript s +:+ delta) s)
        | _ => (Raise, s)
        end
      else if is_str ty "response.done" then
        (Break, print ("Final Transcript: " +:+ transcript s) s)
      else (Continue, s)
  end.

(** Back at the top of [while True]: [transcript = ""], then the next
    [async for] over the same connection. *)
Definition next_turn (s : ReceiveState) : ReceiveState := set_transcript "" s.

(** [except Exception] and [finally], lines 311-315. *)
Definition fail (s : ReceiveState) : ReceiveState :=
  let s1 := logger (LogError "Error in audio playback") s in
  let s2 := set_player (terminate (audio_player s1)) s1 in
  let s3 := logger (LogInfo "Playback done.") s2 in
  mkReceive (last_audio_item_id s3) (transcript s3) (audio_player s3)
            (stdout s3) (log s3) Finished.

(** One inbound text frame, lines 292-308. *)
Definition on_frame (s : ReceiveState) (raw_event : string) : ReceiveState :=
  match status s with
  | Finished => s
  | Running =>
      match json_loads raw_event with
      | None => next_turn (logger (LogError "Failed to decode event") s)
      | Some event =>
          match dispatch s event with
          | (Continue, s') => s'
          | (Break, s') => next_turn s'
          | (Raise, s') => fail s'
          end
      end
  end.

(** Lines 285-291: the state in which the first frame is awaited. *)
Definition initial : ReceiveState :=
  {| last_audio_item_id := PNone; transcript := "";
     audio_player := new_player; stdout := [];
     log := [LogInfo "Starting audio playback ..."]; status := Running |}.

(** The loop over the text frames the connection delivers while it stays
    open. *)
Definition run (s : ReceiveState) (frames : list string) : ReceiveState :=
  fold_left on_frame frames s.

Definition receive_audio_and_playback (frames : list string) : ReceiveState :=
  run initial frames.

(** *** The wire protocol, as the specification words it

    A frame is malformed, or one of the server events of the protocol:
    [response.audio.delta] with base64 PCM, [response.audio_transcript.delta]
    with a text fragment, [response.done], or an event of another type. *)
Inductive Kind :=
| KMalformed
| KAudio (pcm : chunk)
| KText (fragment : string)
| KDone
| KOther.

(** The kind of a frame; [None] for a frame that decodes to something the
    protocol does not allow (not an object, a delta that is not text, audio
    that is not base64 PCM). *)
Definition classify (raw_event : string) : option Kind :=
  match json_loads raw_event with
  | None => Some KMalformed
  | Some event =>
      match py_get event "type" PNone, py_get event "delta" (PStr "") with
      | Some ty, Some delta =>
          if is_str ty "response.audio.delta" then
            match delta with
            | PStr d =>
                match b64decode d with
                | Some bytes_data =>
                    match frombuffer_int16 bytes_data with
                    | Some pcm => Some (KAudio pcm)
                    | None => None
                    end
                | None => None
                end
            | _ => None
            end
          else if is_str ty "response.audio_transcript.delta" then
            match delta with
            | PStr d => Some (KText d)
            | _ => None
            end
          else if is_str ty "response.done" then Some KDone
          else Some KOther
      | _, _ => None
      end
  end.

Fixpoint classify_all (frames : list string) : option (list Kind) :=
  match frames with
  | [] => Some []
  | raw :: rest =>
      match classify raw, classify_all rest with
      | Some k, Some ks => Some (k :: ks)
      | _, _ => None
      end
  end.

(** The item identifier an audio frame carries. *)
Definition item_id_of (raw_event : string) : option pyval :=
  match json_loads raw_event with
  | Some event => py_get event "item_id" PNone
  | None => None
  end.

End Loop.

(** What a turn-by-turn reading of a classified stream expects: the PCM
    chunks in order, and the transcripts, one for each [response.done],
    each made of the fragments since the turn began. *)
Fixpoint chunks_of (ks : list Kind) : list chunk :=
  match ks with
  | [] => []
  | KAudio pcm :: rest => pcm :: chunks_of rest
  | _ :: rest => chunks_of rest
  end.

Fixpoint transcripts (acc : string) (ks : list Kind) : list string :=
  match ks with
  | [] => []
  | KText d :: rest => transcripts (acc +:+ d) rest
  | KDone :: rest => acc :: transcripts "" rest
  | KMalformed :: rest => transcripts "" rest
  | _ :: rest => transcripts acc rest
  end.

Fixpoint pending (acc : string) (ks : list Kind) : string :=
  match ks with
  | [] => acc
  | KText d :: rest => pending (acc +:+ d) rest
  | KDone :: rest => pending "" rest
  | KMalformed :: rest => pending "" rest
  | _ :: rest => pending acc rest
  end.

Fixpoint decode_errors (ks : list Kind) : nat :=
  match ks with
  | [] => 0
  | KMalformed :: rest => S (decode_errors rest)
  | _ :: rest => decode_errors rest
  end.

(** What each kind of frame is expected to do to the state: a push of the
    decoded chunk (which starts the stream), a longer transcript, a
    transcript printed and a new turn, a logged error and a new turn. *)
Definition push (pcm : chunk) (p : AudioPlayerAsync) : AudioPlayerAsync :=
  {| queue := queue p ++ [pcm]; playing := true;
     stream_active := if playing p then stream_active p else true;
     stream_closed := stream_closed p |}.

Definition expect (k : Kind) (s : ReceiveState) : ReceiveState :=
  match k with
  | KMalformed => next_turn (logger (LogError "Failed to decode event") s)
  | KAudio pcm => set_player (push pcm (audio_player s)) s
  | KText d => set_transcript (transcript s +:+ d) s
  | KDone => next_turn (print ("Final Transcript: " +:+ transcript s) s)
  | KOther => s
  end.

(** Two states that differ at most in [last_audio_item_id], which the loop
    writes and never reads again. *)
Definition same_but_last (s1 s2 : ReceiveState) : Prop :=
  transcript s1 = transcript s2 /\ audio_player s1 = audio_player s2 /\
  stdout s1 = stdout s2 /\ log s1 = log s2 /\ status s1 = status s2.

Definition is_decode_error (r : LogRecord) : bool :=
  match r with
  | LogError msg => String.eqb msg "Failed to decode event"
  | _ => false
  end.

End Receive.

(** ** The connection client *)

Module Client.
Import Py.

Inductive PyError :=
| ValueError (msg : string)
| TypeError (msg : string).

(** A token credential: [credential.get_token(scopes).token]. *)
Definition Credential := string -> string.

(** [AsyncVoiceLiveConnection]: the URL and headers it was built with and
    its websocket, [None] until [__aenter__] and again after [__aexit__]. *)
Inductive Websocket := ClientConnection.

Record AsyncVoiceLiveConnection := mkConnection {
  conn_url : string;
  conn_additional_headers : gmap string (option string);
  conn_websocket : option Websocket }.

(** [__aenter__]; [handshake] tells whether [ws_connect] succeeds, a
    [WebSocketException] being turned into a [ValueError]. *)
Definition entered (c : AsyncVoiceLiveConnection) : AsyncVoiceLiveConnection :=
  mkConnection (conn_url c) (conn_additional_headers c) (Some ClientConnection).

Definition aenter (handshake : bool) (c : AsyncVoiceLiveConnection)
  : PyError + AsyncVoiceLiveConnection :=
  if handshake
  then inr (entered c)
  else inl (ValueError "Failed to establish a WebSocket connection").

(** [__aexit__]: the connection afterwards and how many times the
    websocket's [close] was called. *)
Definition aexit (c : AsyncVoiceLiveConnection) : AsyncVoiceLiveConnection * nat :=
  match conn_websocket c with
  | Some _ => (mkConnection (conn_url c) (conn_additional_headers c) None, 1)
  | None => (c, 0)
  end.

(** The keyword arguments of [AsyncAzureVoiceLive.__init__]. *)
Record InitArgs := mkArgs {
  azure_endpoint : option string;
  api_version : option string;
  api_key : option string;
  azure_ad_token_credential : option Credential;
  foundry_credential : option Credential;
  project_name : option string;
  agent_id : option string }.

(** The attributes of an [AsyncAzureVoiceLive]. *)
Record AsyncAzureVoiceLive := mkClient {
  _api_key : option string;
  _azure_endpoint : string;
  _project_name : option string;
  _agent_id : option string;
  _api_version : option string;
  _azure_ad_token_credential : option Credential;
  _foundry_credential : option Credential;
  _connection : option AsyncVoiceLiveConnection;
  _token : option string;
  _foundry_token : option string }.

Definition token_scope : string := "https://cognitiveservices.azure.com/.default".
Definition foundry_scope : string := "https://ai.azure.com".

(** [get_token] and [get_foundry_token], on the credential held. *)
Definition get_token (cred : option Credential) : option string :=
  match cred with
  | Some c => Some (c token_scope)
  | None => None
  end.

Definition get_foundry_token (cred : option Credential) : option string :=
  match cred with
  | Some c => Some (c foundry_scope)
  | None => None
  end.

(** The scopes for which [__init__] asks a credential for a token. *)
Definition scopes_requested (a : InitArgs) : list string :=
  (if present (azure_ad_token_credential a) then [token_scope] else [])
  ++ (if present (foundry_credential a) then [foundry_scope] else []).

(** [os.environ.get] is a lookup in [environ]. *)
Definition resolve_endpoint (environ : gmap string string) (a : InitArgs) : option string :=
  match azure_endpoint a with
  | Some e => Some e
  | None => environ !! "AZURE_VOICE_LIVE_ENDPOINT"
  end.

(** Lines 142-143: the key after the fallback to the environment. *)
Definition resolve_api_key (environ : gmap string string) (a : InitArgs) : option string :=
  match api_key a, azure_ad_token_credential a with
  | None, None => environ !! "AZURE_VOICE_LIVE_API_KEY"
  | k, _ => k
  end.

(** [AsyncAzureVoiceLive.__init__]: the token requests made, and the error
    raised or the client built. *)
Definition init (environ : gmap string string) (a : InitArgs)
  : list string * (PyError + AsyncAzureVoiceLive) :=
  match resolve_endpoint environ a with
  | None =>
      ([], inl (ValueError
        "Must provide the 'azure_endpoint' argument, or the 'AZURE_VOICE_LIVE_ENDPOINT' environment variable"))
  | Some endpoint =>
      let key := resolve_api_key environ a in
      match key, azure_ad_token_credential a with
      | None, None =>
          ([], inl (ValueError
            "Missing credentials. Please pass one of 'api_key', 'azure_ad_token_credential', or the 'AZURE_VOICE_LIVE_API_KEY' environment variable."))
      | _, cred =>
          if truthy key && present cred
          then ([], inl (ValueError
            "Duplicating credentials. Please pass one of 'api_key' and 'azure_ad_token_credential'"))
          else
            (scopes_requested a,
             inr {| _api_key := key;
                    _azure_endpoint := endpoint;
                    _project_name := project_name a;
                    _agent_id := agent_id a;
                    _api_version := api_version a;
                    _azure_ad_token_credential := cred;
                    _foundry_credential := foundry_credential a;
                    _connection := None;
                    _token := get_token cred;
                    _foundry_token := get_foundry_token (foundry_credential a) |})
      end
  end.

(** The f-string of line 196. *)
Definition query_url (c : AsyncAzureVoiceLive) (model : string) (agent : option string) : string :=
  rstrip_slash (_azure_endpoint c)
  +:+ "/voice-agent/realtime?api-version=" +:+ fmt (_api_version c)
  +:+ "&model=" +:+ model
  +:+ "&agent_id=" +:+ fmt (if truthy agent then agent else _agent_id c)
  +:+ "&agent-project-name=" +:+ fmt (_project_name c)
  +:+ "&agent_access_token=" +:+ fmt (_foundry_token c)
  +:+ "&Authorization=Bearer+" +:+ fmt (_token c).

(** The same, cut before the two token parameters. *)
Definition query_front (c : AsyncAzureVoiceLive) (model : string) (agent : option string)
  : string :=
  rstrip_slash (_azure_endpoint c)
  +:+ "/voice-agent/realtime?api-version=" +:+ fmt (_api_version c)
  +:+ "&model=" +:+ model
  +:+ "&agent_id=" +:+ fmt (if truthy agent then agent else _agent_id c)
  +:+ "&agent-project-name=" +:+ fmt (_project_name c).

(** Lines 200-201. *)
Definition auth_header (c : AsyncAzureVoiceLive) : gmap string (option string) :=
  if truthy (_token c)
  then {[ "Authorization" := Some ("Bearer " +:+ fmt (_token c)) ]}
  else {[ "api-key" := _api_key c ]}.

Definition headers (c : AsyncAzureVoiceLive) (request_id : string) : gmap string (option string) :=
  auth_header c ∪ {[ "x-ms-client-request-id" := Some request_id ]}.

Definition set_connection (o : option AsyncVoiceLiveConnection) (c : AsyncAzureVoiceLive)
  : AsyncAzureVoiceLive :=
  mkClient (_api_key c) (_azure_endpoint c) (_project_name c) (_agent_id c)
           (_api_version c) (_azure_ad_token_credential c) (_foundry_credential c)
           o (_token c) (_foundry_token c).

(** [connect(model, agent_id)]; [request_id] is [str(uuid.uuid4())].  The
    client afterwards comes with the error raised or the connection
    returned, which is the one the client now holds. *)
Definition connect (c : AsyncAzureVoiceLive) (model : string) (agent : option string)
    (request_id : string) : AsyncAzureVoiceLive * (PyError + AsyncVoiceLiveConnection) :=
  match _connection c with
  | Some _ => (c, inl (ValueError "Already connected to the Azure Voice Agent service."))
  | None =>
      if String.eqb model ""
      then (c, inl (ValueError "Model name is required."))
      else
        let url := to_wss (query_url c model agent) in
        let conn := mkConnection url (headers c request_id) None in
        (set_connection (Some conn) c, inr conn)
  end.

(** What a caller can do with a client and the connection it holds. *)
Inductive Op :=
| OpConnect (model : string) (agent : option string) (request_id : string)
| OpEnter (handshake : bool)
| OpClose.



End Client.

(** ** JSON text *)

Module Json.
Import Py.

Definition dquote : ascii := "034"%char.
Definition backslash : ascii := "092"%char.

(** *** [json.dumps] *)

Definition hex_digit (n : N) : ascii :=
  match n with
  | 0 => "0" | 1 => "1" | 2 => "2" | 3 => "3" | 4 => "4" | 5 => "5" | 6 => "6"
  | 7 => "7" | 8 => "8" | 9 => "9" | 10 => "a" | 11 => "b" | 12 => "c"
  | 13 => "d" | 14 => "e" | _ => "f"
  end%N%char.

(** One character of [encode_basestring_ascii]: the quote, the backslash
    and everything outside [' '..'~'] are escaped. *)
Definition escape_char (c : ascii) : string :=
  let n := N_of_ascii c in
  if Ascii.eqb c dquote then String backslash (String dquote "")
  else if Ascii.eqb c backslash then String backslash (String backslash "")
  else if (n =? 10)%N then String backslash "n"
  else if (n =? 13)%N then String backslash "r"
  else if (n =? 9)%N then String backslash "t"
  else if (n =? 8)%N then String backslash "b"
  else if (n =? 12)%N then String backslash "f"
  else if ((n <? 32) || (126 <? n))%N
       then String backslash
              (String "u" (String "0" (String "0"
                (String (hex_digit (n / 16)) (String (hex_digit (n mod 16)) "")))))
  else String c "".

Fixpoint escape (s : string) : string :=
  match s with
  | EmptyString => EmptyString
  | String c rest => escape_char c +:+ escape rest
  end.

Definition encode_string (s : string) : string :=
  String dquote (escape s +:+ String dquote "").

(** [int.__repr__] *)
Definition print_int (n : Z) : string :=
  match n with
  | Z0 => "0"
  | Zpos p => DecimalString.NilEmpty.string_of_uint (N.to_uint (Npos p))
  | Zneg p => String "-" (DecimalString.NilEmpty.string_of_uint (N.to_uint (Npos p)))
  end.

(** [floatstr] of the encoder, on the text [float.__repr__] gives. *)
Definition floatstr (repr : string) : string :=
  if String.eqb repr "nan" then "NaN"
  else if String.eqb repr "inf" then "Infinity"
  else if String.eqb repr "-inf" then "-Infinity"
  else repr.

(** [', '.join(parts)], where a part that raised makes the whole raise. *)
Fixpoint join_texts (parts : list (option string)) : option string :=
  match parts with
  | [] => Some EmptyString
  | [x] => x
  | x :: rest =>
      match x, join_texts rest with
      | Some a, Some b => Some (a +:+ ", " +:+ b)
      | _, _ => None
      end
  end.

Definition bracket (l r : string) (body : option string) : option string :=
  match body with
  | Some b => Some (l +:+ b +:+ r)
  | None => None
  end.

Definition member_text (key : string) (value : option string) : option string :=
  match value with
  | Some a => Some (encode_string key +:+ ": " +:+ a)
  | None => None
  end.

(** [json.dumps(obj)] with its default separators; [None] is the
    [TypeError] raised for an object that is not JSON serializable. *)
Fixpoint dumps (obj : pyval) : option string :=
  match obj with
  | PNone => Some "null"
  | PBool true => Some "true"
  | PBool false => Some "false"
  | PInt n => Some (print_int n)
  | PFloat repr => Some (floatstr repr)
  | PStr s => Some (encode_string s)
  | PList items => bracket "[" "]" (join_texts (map dumps items))
  | PDict items =>
      bracket "{" "}"
        (join_texts (map (fun kv => member_text (fst kv) (dumps (snd kv))) items))
  | PSet _ => None
  end.

(** *** [json.loads] *)

Definition is_ws (c : ascii) : bool :=
  let n := N_of_ascii c in ((n =? 32) || (n =? 9) || (n =? 10) || (n =? 13))%N.

Fixpoint skip_ws (s : string) : string :=
  match s with
  | String c rest => if is_ws c then skip_ws rest else s
  | EmptyString => EmptyString
  end.

Definition is_digit (c : ascii) : bool :=
  let n := N_of_ascii c in ((48 <=? n) && (n <=? 57))%N.

Definition hex_value (c : ascii) : option N :=
  let n := N_of_ascii c in
  if ((48 <=? n) && (n <=? 57))%N then Some (n - 48)%N
  else if ((97 <=? n) && (n <=? 102))%N then Some (n - 87)%N
  else if ((65 <=? n) && (n <=? 70))%N then Some (n - 55)%N
  else None.

(** The character a backslash escape stands for. *)
Definition unescape (e : ascii) : option ascii :=
  if Ascii.eqb e dquote then Some dquote
  else if Ascii.eqb e backslash then Some backslash
  else if Ascii.eqb e "/" then Some "/"%char
  else if Ascii.eqb e "b" then Some "008"%char
  else if Ascii.eqb e "f" then Some "012"%char
  else if Ascii.eqb e "n" then Some "010"%char
  else if Ascii.eqb e "r" then Some "013"%char
  else if Ascii.eqb e "t" then Some "009"%char
  else None.

Definition cons_char (c : ascii) (r : option (string * string)) : option (string * string) :=
  match r with
  | Some (s, rest) => Some (String c s, rest)
  | None => None
  end.

(** [py_scanstring], after the opening quote: the string and what follows
    its closing quote.  A raw control character is refused; a [\u] escape
    above [ÿ] is beyond the characters a [string] here can hold and is
    refused too. *)
Fixpoint scan_string (s : string) : option (string * string) :=
  match s with
  | EmptyString => None
  | String c rest =>
      if Ascii.eqb c dquote then Some (EmptyString, rest)
      else if Ascii.eqb c backslash then
        match rest with
        | EmptyString => None
        | String e rest1 =>
            if Ascii.eqb e "u" then
              match rest1 with
              | String h1 (String h2 (String h3 (String h4 rest2))) =>
                  match hex_value h1, hex_value h2, hex_value h3, hex_value h4 with
                  | Some a, Some b, Some c', Some d =>
                      if ((a =? 0) && (b =? 0))%N
                      then cons_char (ascii_of_N (16 * c' + d)) (scan_string rest2)
                      else None
                  | _, _, _, _ => None
                  end
              | _ => None
              end
            else
              match unescape e with
              | Some ch => cons_char ch (scan_string rest1)
              | None => None
              end
        end
      else if (N_of_ascii c <? 32)%N then None
      else cons_char c (scan_string rest)
  end.

(** The longest run of digits at the head of [s], and the rest. *)
Fixpoint span_digits (s : string) : string * string :=
  match s with
  | String c rest =>
      if is_digit c
      then let '(ds, r) := span_digits rest in (String c ds, r)
      else (EmptyString, s)
  | EmptyString => (EmptyString, EmptyString)
  end.

(** The integer part of [NUMBER_RE]: [0] or a run of digits that does not
    begin with [0]. *)
Definition scan_int (s : string) : option (string * string) :=
  match s with
  | String c rest =>
      if Ascii.eqb c "0" then Some ("0", rest)
      else
        match span_digits s with
        | (EmptyString, _) => None
        | r => Some r
        end
  | EmptyString => None
  end.

(** The optional fraction: a dot and at least one digit. *)
Definition scan_frac (s : string) : string * string :=
  match s with
  | String c rest =>
      if Ascii.eqb c "." then
        match span_digits rest with
        | (EmptyString, _) => (EmptyString, s)
        | (ds, r) => (String c ds, r)
        end
      else (EmptyString, s)
  | EmptyString => (EmptyString, s)
  end.

(** An optional sign: [+] or [-] when [plus], [-] only otherwise. *)
Definition scan_sign (plus : bool) (s : string) : string * string :=
  match s with
  | String c rest =>
      if Ascii.eqb c "-" || (plus && Ascii.eqb c "+") then (String c "", rest)
      else (EmptyString, s)
  | EmptyString => (EmptyString, s)
  end.

(** The optional exponent: [e] or [E], an optional sign, at least one digit. *)
Definition scan_exp (s : string) : string * string :=
  match s with
  | String e rest =>
      if Ascii.eqb e "e" || Ascii.eqb e "E" then
        let '(sg, rest1) := scan_sign true rest in
        match span_digits rest1 with
        | (EmptyString, _) => (EmptyString, s)
        | (ds, r) => (String e (sg +:+ ds), r)
        end
      else (EmptyString, s)
  | EmptyString => (EmptyString, s)
  end.

Definition int_of_digits (ds : string) : Z :=
  match DecimalString.NilEmpty.uint_of_string ds with
  | Some d => Z.of_N (N.of_uint d)
  | None => 0%Z
  end.

(** [s] with [p] taken off its head. *)
Fixpoint strip_prefix (p s : string) : option string :=
  match p, s with
  | EmptyString, _ => Some s
  | String a p', String b s' => if Ascii.eqb a b then strip_prefix p' s' else None
  | String _ _, EmptyString => None
  end.

Section Loads.

(** [float(text).__repr__()], the one step of the decoder left open: the
    text of the float a numeric literal denotes. *)
Variable float_canon : string -> string.

(** A match of [NUMBER_RE] at the head of [s]: an [int] when it has neither
    fraction nor exponent, a [float] otherwise. *)
Definition scan_number (s : string) : option (pyval * string) :=
  let '(sign, s1) := scan_sign false s in
  match scan_int s1 with
  | None => None
  | Some (ip, s2) =>
      let '(frac, s3) := scan_frac s2 in
      let '(exp, s4) := scan_exp s3 in
      match frac, exp with
      | EmptyString, EmptyString =>
          Some (PInt (if String.eqb sign "-" then - int_of_digits ip else int_of_digits ip)%Z, s4)
      | _, _ => Some (PFloat (float_canon (sign +:+ ip +:+ frac +:+ exp)), s4)
      end
  end.

(** [null], [true], [false], a number, [NaN], [Infinity], [-Infinity]. *)
Definition scan_atom (s : string) : option (pyval * string) :=
  match strip_prefix "null" s, strip_prefix "true" s, strip_prefix "false" s with
  | Some rest, _, _ => Some (PNone, rest)
  | _, Some rest, _ => Some (PBool true, rest)
  | _, _, Some rest => Some (PBool false, rest)
  | None, None, None =>
      match scan_number s with
      | Some r => Some r
      | None =>
          match strip_prefix "NaN" s, strip_prefix "Infinity" s, strip_prefix "-Infinity" s with
          | Some rest, _, _ => Some (PFloat "nan", rest)
          | _, Some rest, _ => Some (PFloat "inf", rest)
          | _, _, Some rest => Some (PFloat "-inf", rest)
          | None, None, None => None
          end
      end
  end.

(** [dict(pairs)]: a key met again keeps its place and takes the new value. *)
Fixpoint dict_set (k : string) (v : pyval) (items : list (string * pyval))
  : list (string * pyval) :=
  match items with
  | [] => [(k, v)]
  | (k', v') :: rest =>
      if String.eqb k' k then (k', v) :: rest else (k', v') :: dict_set k v rest
  end.

Definition dict_of_pairs (pairs : list (string * pyval)) : list (string * pyval) :=
  fold_left (fun d kv => dict_set (fst kv) (snd kv) d) pairs [].

(** [scan_once] with [JSONArray] and [JSONObject]: the value at the head of
    [s] and what follows it.  [fuel] bounds the depth of the calls; every
    call but the one for the first element of a list is made on a shorter
    text, and [loads] starts with twice the length of the text. *)
Fixpoint parse_value (fuel : nat) (s : string) : option (pyval * string) :=
  match fuel with
  | O => None
  | S fuel' =>
      match s with
      | String c rest =>
          if Ascii.eqb c dquote then
            match scan_string rest with
            | Some (str, rest') => Some (PStr str, rest')
            | None => None
            end
          else if Ascii.eqb c "[" then
            match strip_prefix "]" (skip_ws rest) with
            | Some rest' => Some (PList [], rest')
            | None =>
                match parse_elements fuel' (skip_ws rest) with
                | Some (items, rest') => Some (PList items, rest')
                | None => None
                end
            end
          else if Ascii.eqb c "{" then
            match strip_prefix "}" (skip_ws rest) with
            | Some rest' => Some (PDict [], rest')
            | None =>
                match parse_members fuel' (skip_ws rest) with
                | Some (pairs, rest') => Some (PDict (dict_of_pairs pairs), rest')
                | None => None
                end
            end
          else scan_atom s
      | EmptyString => None
      end
  end

with parse_elements (fuel : nat) (s : string) : option (list pyval * string) :=
  match fuel with
  | O => None
  | S fuel' =>
      match parse_value fuel' s with
      | Some (v, rest) =>
          match strip_prefix "]" (skip_ws rest), strip_prefix "," (skip_ws rest) with
          | Some rest', _ => Some ([v], rest')
          | None, Some rest' =>
              match parse_elements fuel' (skip_ws rest') with
              | Some (vs, rest'') => Some (v :: vs, rest'')
              | None => None
              end
          | None, None => None
          end
      | None => None
      end
  end

with parse_members (fuel : nat) (s : string) : option (list (string * pyval) * string) :=
  match fuel with
  | O => None
  | S fuel' =>
      match strip_prefix (String dquote "") s with
      | Some rest =>
          match scan_string rest with
          | Some (key, rest1) =>
              match strip_prefix ":" (skip_ws rest1) with
              | Some rest2 =>
                  match parse_value fuel' (skip_ws rest2) with
                  | Some (v, rest3) =>
                      match strip_prefix "}" (skip_ws rest3),
                            strip_prefix "," (skip_ws rest3) with
                      | Some rest', _ => Some ([(key, v)], rest')
                      | None, Some rest' =>
                          match parse_members fuel' (skip_ws rest') with
                          | Some (kvs, rest'') => Some ((key, v) :: kvs, rest'')
                          | None => None
                          end
                      | None, None => None
                      end
                  | None => None
                  end
              | None => None
              end
          | None => None
          end
      | None => None
      end
  end.

(** [json.loads(text)]; [None] is [json.JSONDecodeError]. *)
Definition loads (text : string) : option pyval :=
  let s := skip_ws text in
  match parse_value (2 * String.length s + 2) s with
  | Some (v, rest) =>
      match skip_ws rest with
      | EmptyString => Some v
      | _ => None
      end
  | None => None
  end.

(** A float whose text the decoder reads back as it stands: [nan], [inf],
    [-inf], or a numeric literal with a fraction or an exponent that
    [float_canon] leaves alone, as it does the [repr] of a finite float. *)
Definition float_ok (repr : string) : bool :=
  String.eqb repr "nan" || String.eqb repr "inf" || String.eqb repr "-inf" ||
  match scan_number repr with
  | Some (PFloat r, EmptyString) => String.eqb r repr
  | _ => false
  end.

(** The first character of a value's text: not white space, and none of
    the characters that close or continue a list or a dict. *)
Definition opens_value (c : ascii) : bool :=
  negb (is_ws c) && negb (Ascii.eqb c "]") && negb (Ascii.eqb c "}")
  && negb (Ascii.eqb c ",") && negb (Ascii.eqb c ":").

(** The first character of a number. *)
Definition opens_number (c : ascii) : bool := Ascii.eqb c "-" || is_digit c.

(** What may follow a value in the text [json.dumps] writes: nothing, a
    comma, or a closing bracket or brace. *)
Definition delimited (rest : string) : Prop :=
  match rest with
  | EmptyString => True
  | String c _ => c = ","%char \/ c = "]"%char \/ c = "}"%char
  end.

Fixpoint distinct (keys : list string) : bool :=
  match keys with
  | [] => true
  | k :: rest => negb (existsb (String.eqb k) rest) && distinct rest
  end.

(** The objects [json.dumps] and [json.loads] carry both ways: no [set],
    no key twice in a [dict], floats that satisfy [float_ok]. *)
Fixpoint json_native (obj : pyval) : bool :=
  match obj with
  | PNone | PBool _ | PInt _ | PStr _ => true
  | PFloat repr => float_ok repr
  | PList items => forallb json_native items
  | PDict items =>
      distinct (map fst items) && forallb (fun kv => json_native (snd kv)) items
  | PSet _ => false
  end.

(** A value is read back: its text, followed by a delimiter, parses to the
    value and leaves what followed, given fuel for twice its length. *)
Definition reads (v : pyval) : Prop :=
  forall text, dumps v = Some text -> json_native v = true ->
  forall fuel rest, delimited rest -> (2 * String.length text + 1 <= fuel)%nat ->
  parse_value fuel (text +:+ rest) = Some (v, rest).

End Loads.

(** *** [AsyncVoiceLiveSessionResource.update] *)

(** The event built at lines 77-79. *)
Definition session_update_param (session : pyval) (event_id : option string) : pyval :=
  PDict [("type", PStr "session.update");
         ("session", session);
         ("event_id", match event_id with Some e => PStr e | None => PNone end)].

(** [update(session=..., event_id=...)]: the text handed to
    [connection.send], or [None] when [json.dumps] raises. *)
Definition update (session : pyval) (event_id : option string) : option string :=
  dumps (session_update_param session event_id).

End Json.

(** ** The coordinator *)

Module Coordinator.
Import Py Client.

(** The session of lines 366-399, sent once the connection is entered. *)
Definition connect_session : pyval :=
  PDict [
    ("turn_detection", PDict [
       ("create_response", PBool true);
       ("interrupt_response", PBool true);
       ("type", PStr "azure_semantic_vad");
       ("threshold", PFloat "0.5");
       ("prefix_padding_ms", PInt 400);
       ("silence_duration_ms", PInt 400);
       ("remove_filler_words", PBool true);
       ("end_of_utterance_detection", PDict [
          ("model", PStr "semantic_detection_v1");
          ("threshold", PFloat "0.3");
          ("timeout", PInt 3)])]);
    ("input_audio_transcription", PDict [("model", PStr "azure-fast-transcription")]);
    ("input_audio_noise_reduction", PDict [("type", PStr "azure_deep_noise_suppression")]);
    ("input_audio_echo_cancellation", PDict [("type", PStr "server_echo_cancellation")]);
    ("voice", PDict [
       ("name", PStr "en-US-Aria:DragonHDLatestNeural");
       ("type", PStr "azure-standard");
       ("temperature", PFloat "0.3")]);
    ("modalities", PList [PStr "audio"; PStr "text"]);
    ("tool_choice", PStr "auto")].

Inductive Activity := SendTask | ReceiveTask | KeyboardTask.

(** An [asyncio.Task]: still to run, asked to cancel, or done. *)
Inductive TaskState := Pending | CancelRequested | Done.

Inductive Effect :=
| Cancel (a : Activity)
| CloseChannel
| Printed (line : string).

(** The three tasks of [AgentVoice.connect], the connection of its
    [async with], and what it has done so far. *)
Record Supervisor := mkSupervisor {
  send_task : TaskState;
  receive_task : TaskState;
  keyboard_task : TaskState;
  channel : AsyncVoiceLiveConnection;
  trace : list Effect }.

Definition task (s : Supervisor) (a : Activity) : TaskState :=
  match a with
  | SendTask => send_task s
  | ReceiveTask => receive_task s
  | KeyboardTask => keyboard_task s
  end.

(** [Task.cancel()]: nothing happens to a task that is done. *)
Definition cancel_task (t : TaskState) : TaskState :=
  match t with
  | Pending => CancelRequested
  | CancelRequested => CancelRequested
  | Done => Done
  end.

Definition cancel (a : Activity) (s : Supervisor) : Supervisor :=
  match a with
  | SendTask =>
      mkSupervisor (cancel_task (send_task s)) (receive_task s) (keyboard_task s)
                   (channel s) (trace s ++ [Cancel a])
  | ReceiveTask =>
      mkSupervisor (send_task s) (cancel_task (receive_task s)) (keyboard_task s)
                   (channel s) (trace s ++ [Cancel a])
  | KeyboardTask =>
      mkSupervisor (send_task s) (receive_task s) (cancel_task (keyboard_task s))
                   (channel s) (trace s ++ [Cancel a])
  end.

(** Leaving the [async with]: [__aexit__], with one [CloseChannel] for each
    call it makes to the websocket's [close]. *)
Definition leave_channel (s : Supervisor) : Supervisor :=
  let '(conn, n) := aexit (channel s) in
  mkSupervisor (send_task s) (receive_task s) (keyboard_task s)
               conn (trace s ++ repeat CloseChannel n).

Definition print (line : string) (s : Supervisor) : Supervisor :=
  mkSupervisor (send_task s) (receive_task s) (keyboard_task s)
               (channel s) (trace s ++ [Printed line]).

(** Lines 402-407, at the moment [asyncio.wait(..., FIRST_COMPLETED)]
    returns: [conn] is what [client.connect] returned, entered by the
    [async with]; [done a] tells whether task [a] has completed by then. *)
Definition after_wait (conn : AsyncVoiceLiveConnection) (done : Activity -> bool)
  : Supervisor :=
  let st a := if done a then Done else Pending in
  {| send_task := st SendTask; receive_task := st ReceiveTask;
     keyboard_task := st KeyboardTask; channel := entered conn;
     trace := [Printed "Starting the chat ..."] |}.

(** Lines 409-411. *)
Definition wind_down (s : Supervisor) : Supervisor :=
  print "Chat done." (leave_channel (cancel ReceiveTask (cancel SendTask s))).

Definition supervise (conn : AsyncVoiceLiveConnection) (done : Activity -> bool)
  : Supervisor :=
  wind_down (after_wait conn done).

(** The activity that completed first, alone. *)
Definition only (first : Activity) (a : Activity) : bool :=
  match first, a with
  | SendTask, SendTask | ReceiveTask, ReceiveTask | KeyboardTask, KeyboardTask => true
  | _, _ => false
  end.

Definition is_close (e : Effect) : bool :=
  match e with
  | CloseChannel => true
  | _ => false
  end.

(** How many times the channel was closed in a trace. *)
Definition closes (t : list Effect) : nat := length (List.filter is_close t).

End Coordinator.

(** ** Instances of the library calls and sample data *)

(** The receive loop is stated for any [json.loads], [base64.b64decode]
    and [!=]; this module gives one of each, and the frames of a short
    exchange, to run the loop on. *)
Module Examples.
Import Audio Py Receive Client.

(** Standard base64: characters outside the alphabet are dropped, then
    every four characters give three bytes, with [=] padding at the end. *)
Definition b64_value (c : ascii) : option N :=
  let n := N_of_ascii c in
  if ((65 <=? n) && (n <=? 90))%N then Some (n - 65)%N
  else if ((97 <=? n) && (n <=? 122))%N then Some (n - 71)%N
  else if ((48 <=? n) && (n <=? 57))%N then Some (n + 4)%N
  else if (n =? 43)%N then Some 62%N
  else if (n =? 47)%N then Some 63%N
  else None.

Definition byte_of_N (n : N) : byte :=
  match Byte.of_N (n mod 256) with
  | Some b => b
  | None => x00
  end.

Fixpoint b64_symbols (s : string) : list (option N) :=
  match s with
  | EmptyString => []
  | String c rest =>
      match b64_value c with
      | Some v => Some v :: b64_symbols rest
      | None => if Ascii.eqb c "=" then None :: b64_symbols rest else b64_symbols rest
      end
  end.

Fixpoint b64_groups (fuel : nat) (l : list (option N)) : option (list byte) :=
  match fuel with
  | O => None
  | S fuel' =>
      match l with
      | [] => Some []
      | [Some a; Some b; None; None] => Some [byte_of_N (a * 4 + b / 16)]
      | [Some a; Some b; Some c; None] =>
          Some [byte_of_N (a * 4 + b / 16); byte_of_N (b * 16 + c / 4)]
      | Some a :: Some b :: Some c :: Some d :: rest =>
          match b64_groups fuel' rest with
          | Some bytes =>
              Some (byte_of_N (a * 4 + b / 16) :: byte_of_N (b * 16 + c / 4)
                      :: byte_of_N (c * 64 + d) :: bytes)
          | None => None
          end
      | _ => None
      end
  end.

Definition b64decode (s : string) : option (list byte) :=
  let symbols := b64_symbols s in
  b64_groups (S (length symbols)) symbols.

(** Structural comparison of two decoded values. *)
Fixpoint py_eqb (a b : pyval) : bool :=
  match a, b with
  | PNone, PNone => true
  | PBool x, PBool y => Bool.eqb x y
  | PInt x, PInt y => Z.eqb x y
  | PFloat x, PFloat y => String.eqb x y
  | PStr x, PStr y => String.eqb x y
  | PList l1, PList l2 | PSet l1, PSet l2 =>
      (fix go (l1 l2 : list pyval) : bool :=
         match l1, l2 with
         | [], [] => true
         | x :: r1, y :: r2 => py_eqb x y && go r1 r2
         | _, _ => false
         end) l1 l2
  | PDict d1, PDict d2 =>
      (fix go (d1 d2 : list (string * pyval)) : bool :=
         match d1, d2 with
         | [], [] => true
         | (k1, x) :: r1, (k2, y) :: r2 => String.eqb k1 k2 && py_eqb x y && go r1 r2
         | _, _ => false
         end) d1 d2
  | _, _ => false
  end.

Definition py_ne (a b : pyval) : bool := negb (py_eqb a b).

(** [json.loads] with literals read as the floats they spell. *)
Definition json_loads (text : string) : option pyval := Json.loads (fun repr => repr) text.

Fixpoint repeat_text (n : nat) (s : string) : string :=
  match n with
  | O => EmptyString
  | S k => s +:+ repeat_text k s
  end.

(** The text of a server event. *)
Definition frame (event : pyval) : string :=
  match Json.dumps event with
  | Some text => text
  | None => EmptyString
  end.

Definition audio_frame (item_id delta : string) : string :=
  frame (PDict [("type", PStr "response.audio.delta");
                ("item_id", PStr item_id); ("delta", PStr delta)]).

Definition transcript_frame (delta : string) : string :=
  frame (PDict [("type", PStr "response.audio_transcript.delta"); ("delta", PStr delta)]).

Definition done_frame : string := frame (PDict [("type", PStr "response.done")]).

(** Base64 of 100, 200 and 300 samples of silence. *)
Definition silence_100 : string := repeat_text 66 "AAAA" +:+ "AAA=".
Definition silence_200 : string := repeat_text 133 "AAAA" +:+ "AA==".
Definition silence_300 : string := repeat_text 200 "AAAA".

(** A client that was given both credentials. *)
Definition sample_client : AsyncAzureVoiceLive :=
  mkClient None "https://voice.example/" None (Some "asst_1") (Some "2025-05-01-preview")
           (Some (fun _ => "tok")) (Some (fun _ => "ftok")) None (Some "tok") (Some "ftok").

End Examples.

(** ** Pushes and pulls in any order *)

Module Playback.
Import Audio.

(** The two calls that reach the queue while it plays: [add_data] from the
    receive loop and [callback] from the audio device. *)
Inductive Op :=
| Push (data : list byte)
| Pull (frames : nat).

(** A history of such calls: what each pull wrote, the player at the end,
    and whether some pull found fewer samples than it asked for.  [None]
    when an [add_data] raised. *)
Fixpoint run (p : AudioPlayerAsync) (ops : list Op)
  : option (list chunk * AudioPlayerAsync * bool) :=
  match ops with
  | [] => Some ([], p, false)
  | Push data :: rest =>
      match add_data p data with
      | Some p' => run p' rest
      | None => None
      end
  | Pull frames :: rest =>
      let short := (length (concat (queue p)) <? frames)%nat in
      match run (snd (callback p frames)) rest with
      | Some (outs, p', s) => Some (fst (callback p frames) :: outs, p', short || s)
      | None => None
      end
  end.

(** The byte strings pushed in a history, in order. *)
Fixpoint pushes (ops : list Op) : list (list byte) :=
  match ops with
  | [] => []
  | Push data :: rest => data :: pushes rest
  | Pull _ :: rest => pushes rest
  end.

(** The number of samples the pulls of a history asked for. *)
Fixpoint pulled (ops : list Op) : nat :=
  match ops with
  | [] => 0
  | Push _ :: rest => pulled rest
  | Pull frames :: rest => frames + pulled rest
  end.

End Playback.

(** ** One turn of the receive loop *)

Module Turns.
Import Receive.

(** The text fragments of a classified stream, joined in order. *)
Fixpoint fragments (ks : list Kind) : string :=
  match ks with
  | [] => EmptyString
  | KText d :: rest => d +:+ fragments rest
  | _ :: rest => fragments rest
  end.

(** A stretch of one turn: no [response.done] and no malformed frame. *)
Fixpoint within_turn (ks : list Kind) : bool :=
  match ks with
  | [] => true
  | KDone :: _ | KMalformed :: _ => false
  | _ :: rest => within_turn rest
  end.

End Turns.

(** ** The capture-and-send loop *)

Module Capture.
Import Py.

(** [int(AUDIO_SAMPLE_RATE * 0.02)] *)
Definition read_size : nat := 480.

(** How [await connection.send(data_json)] ends: it returns, it raises
    [ConnectionResetError] or a [WebSocketException], it raises another
    [Exception], or the task is cancelled while it waits. *)
Inductive SendOutcome := Sent | SendFails | SendRaises | SendCancelled.

(** One pass of the [while True]: what [stream.read_available] reports,
    what [stream.read] gives ([None]: it raises), and how the send ends. *)
Record Tick := mkTick {
  available : nat;
  read : option (list byte);
  outcome : SendOutcome }.

Inductive LogRecord :=
| LogInfo (msg : string)
| LogError (msg : string)
| LogDebug (msg : string).

(** The calls made on the [sd.InputStream]. *)
Inductive DeviceCall := Start | Read | Stop | Close.

Inductive Status := Running | Ended.

(** The frames sent so far, the calls made on the device, the log, and
    whether the function is still in its loop. *)
Record CaptureState := mkCapture {
  sent : list string;
  device : list DeviceCall;
  log : list LogRecord;
  status : Status }.

(** The event of line 270. *)
Definition append_param (audio : string) : pyval :=
  PDict [("type", PStr "input_audio_buffer.append");
         ("audio", PStr audio);
         ("event_id", PStr "")].

(** The [finally] clause, lines 279-282. *)
Definition finish (s : CaptureState) : CaptureState :=
  mkCapture (sent s) (device s ++ [Stop; Close])
            (log s ++ [LogInfo "Audio stream closed."]) Ended.

(** [except Exception], line 277-278, then [finally]. *)
Definition interrupted (s : CaptureState) : CaptureState :=
  finish (mkCapture (sent s) (device s)
                    (log s ++ [LogDebug "Audio stream interrupted."]) (status s)).

Section Loop.

(** [base64.b64encode(data).decode("utf-8")], left open. *)
Variable b64encode : list byte -> string.

(** Lines 266-276, one pass. *)
Definition on_tick (s : CaptureState) (t : Tick) : CaptureState :=
  match status s with
  | Ended => s
  | Running =>
      if (available t <? read_size)%nat then s
      else
        match read t with
        | None => interrupted (mkCapture (sent s) (device s ++ [Read]) (log s) (status s))
        | Some data =>
            let s1 := mkCapture (sent s) (device s ++ [Read]) (log s) (status s) in
            match Json.dumps (append_param (b64encode data)) with
            | None => interrupted s1
            | Some data_json =>
                match outcome t with
                | Sent => mkCapture (sent s1 ++ [data_json]) (device s1) (log s1) (status s1)
                | SendFails =>
                    finish (mkCapture (sent s1) (device s1)
                              (log s1 ++ [LogError "WebSocket error while sending audio"])
                              (status s1))
                | SendRaises => interrupted s1
                | SendCancelled => finish s1
                end
            end
        end
  end.

(** Lines 259-263: [started] tells whether [stream.start()] returns. *)
Definition begin (started : bool) : CaptureState :=
  let s := mkCapture [] [Start] [LogInfo "Starting audio stream ..."] Running in
  if started then s else interrupted s.

Definition listen_and_send_audio (started : bool) (ticks : list Tick) : CaptureState :=
  fold_left on_tick ticks (begin started).

(** The frames a run of passes captures when nothing fails: the data of
    every pass that found a whole frame available. *)
Fixpoint captured (ticks : list Tick) : list (list byte) :=
  match ticks with
  | [] => []
  | t :: rest =>
      if (available t <? read_size)%nat then captured rest
      else
        match read t with
        | Some data => data :: captured rest
        | None => captured rest
        end
  end.

(** A pass on which nothing fails. *)
Definition smooth (t : Tick) : bool :=
  (available t <? read_size)%nat ||
  match read t, outcome t with
  | Some _, Sent => true
  | _, _ => false
  end.

End Loop.

(** The calls the device has seen after [n] reads, while the loop runs
    and once the [finally] clause is through. *)
Definition calls (n : nat) (st : Status) : list DeviceCall :=
  Start :: repeat Read n ++ match st with
                            | Running => []
                            | Ended => [Stop; Close]
                            end.

End Capture.

(** ** The cancellation watch *)

Module Keyboard.

(** [str.isspace] on one character, for code points up to 255. *)
Definition is_space (c : ascii) : bool :=
  let n := N_of_ascii c in
  (((9 <=? n) && (n <=? 13)) || ((28 <=? n) && (n <=? 32))
   || (n =? 133) || (n =? 160))%N.

(** A string of white space only. *)
Fixpoint blank (s : string) : bool :=
  match s with
  | String c rest => is_space c && blank rest
  | EmptyString => true
  end.

Fixpoint lstrip (s : string) : string :=
  match s with
  | String c rest => if is_space c then lstrip rest else s
  | EmptyString => EmptyString
  end.

(** The string without its trailing white space. *)
Fixpoint rstrip (s : string) : string :=
  match s with
  | EmptyString => EmptyString
  | String c rest =>
      match rstrip rest with
      | EmptyString => if is_space c then EmptyString else String c EmptyString
      | r => String c r
      end
  end.

(** [s.strip()] *)
Definition strip (s : string) : string := rstrip (lstrip s).

(** [str.lower] on one character, for code points up to 255. *)
Definition lower_char (c : ascii) : ascii :=
  let n := N_of_ascii c in
  if (((65 <=? n) && (n <=? 90)) || ((192 <=? n) && (n <=? 222) && negb (n =? 215)))%N
  then ascii_of_N (n + 32)
  else c.

Fixpoint lower (s : string) : string :=
  match s with
  | EmptyString => EmptyString
  | String c rest => String (lower_char c) (lower rest)
  end.

(** Line 322. *)
Definition quits (user_input : string) : bool :=
  String.eqb (lower (strip user_input)) "q".

(** [read_keyboard_and_quit] on the lines typed: what it printed, and the
    lines left unread once it has returned; [None] while it still waits
    for a line. *)
Fixpoint wait_for_quit (lines : list string) : list string * option (list string) :=
  match lines with
  | [] => ([], None)
  | user_input :: rest =>
      if quits user_input then (["Quitting the chat..."], Some rest)
      else wait_for_quit rest
  end.

Definition read_keyboard_and_quit (lines : list string) : list string * option (list string) :=
  let '(printed, unread) := wait_for_quit lines in
  ("Press 'q' and Enter to quit the chat." :: printed, unread).

End Keyboard.

(** ** The voice agent *)

Module Voice.
Import Py.

(** The keyword arguments of [AgentVoice.__init__]. *)
Record InitArgs := mkArgs {
  arg_agent_id : option string;
  arg_project_name : option string;
  arg_endpoint : option string;
  arg_deployment : option string;
  arg_api_key : option string }.

(** The attributes of an [AgentVoice]. *)
Record AgentVoice := mkVoice {
  agent_id : option string;
  project_name : option string;
  endpoint : option string;
  deployment : option string;
  api_key : option string }.

(** [a or b] *)
Definition py_or (a b : option string) : option string :=
  if truthy a then a else b.

(** Lines 339-344. *)
Definition resolve (environ : gmap string string) (a : InitArgs) : AgentVoice :=
  {| agent_id := py_or (arg_agent_id a) (environ !! "AZURE_VOICE_LIVE_AGENT_ID");
     project_name := py_or (arg_project_name a) (environ !! "AZURE_FOUNDRY_PROJECT_NAME");
     endpoint := py_or (arg_endpoint a) (environ !! "AZURE_VOICE_LIVE_ENDPOINT");
     deployment := py_or (arg_deployment a) (environ !! "AZURE_VOICE_LIVE_DEPLOYMENT");
     api_key := py_or (arg_api_key a) (environ !! "AZURE_VOICE_LIVE_API_KEY") |}.

(** [AgentVoice.__init__]: what it printed, and the error raised or the
    object built. *)
Definition init (environ : gmap string string) (a : InitArgs)
  : list string * (Client.PyError + AgentVoice) :=
  let self := resolve environ a in
  (["Using agent_id: " +:+ fmt (agent_id self)],
   if negb (truthy (endpoint self)) || negb (truthy (deployment self))
   then inl (Client.ValueError
     "Both AZURE_VOICE_LIVE_ENDPOINT and AZURE_VOICE_LIVE_DEPLOYMENT environment variables must be set.")
   else inr self).

(** [__repr__] *)
Definition repr (self : AgentVoice) : string :=
  "AgentVoice(agent_id=" +:+ fmt (agent_id self)
  +:+ ", project_name=" +:+ fmt (project_name self) +:+ ")".

(** Lines 355-362: the arguments [connect] builds its client with;
    [credential] and [foundry] are the two [DefaultAzureCredential()]. *)
Definition client_args (self : AgentVoice) (credential foundry : Client.Credential)
  : Client.InitArgs :=
  Client.mkArgs (endpoint self) (Some "2025-05-01-preview") None
                (Some credential) (Some foundry) (project_name self) (agent_id self).

(** Lines 355-364, up to the connection handed to the [async with]:
    [client.connect(model = self.deployment)], where a missing model is
    refused as an empty one is. *)
Definition open_connection (environ : gmap string string) (self : AgentVoice)
    (credential foundry : Client.Credential) (request_id : string)
  : Client.PyError + Client.AsyncVoiceLiveConnection :=
  match snd (Client.init environ (client_args self credential foundry)) with
  | inl e => inl e
  | inr client =>
      match deployment self with
      | Some model => snd (Client.connect client model None request_id)
      | None => inl (Client.ValueError "Model name is required.")
      end
  end.

(** How [AgentVoice.connect] ends: it returns, it raises an error of the
    client, or it lets through what [connection.send] raised. *)
Inductive Ending := Returns | Raises (e : Client.PyError) | SendRaises.

(** The frames [connect] sent itself, what it did, and how it ended. *)
Record Chat := mkChat {
  frames : list string;
  trace : list Coordinator.Effect;
  ending : Ending }.

(** Lines 354-411.  [handshake] tells whether [ws_connect] succeeds,
    [update_sent] whether the [send] of the session update returns, and
    [done] which tasks have completed when the wait returns.  An
    exception inside the [async with] leaves it through [__aexit__]. *)
Definition connect (environ : gmap string string) (self : AgentVoice)
    (credential foundry : Client.Credential) (request_id : string)
    (handshake update_sent : bool) (done : Coordinator.Activity -> bool) : Chat :=
  match open_connection environ self credential foundry request_id with
  | inl e => mkChat [] [] (Raises e)
  | inr conn =>
      match Client.aenter handshake conn with
      | inl e => mkChat [] [] (Raises e)
      | inr channel =>
          let closing := repeat Coordinator.CloseChannel (snd (Client.aexit channel)) in
          match Json.update Coordinator.connect_session None with
          | None =>
              mkChat [] closing
                     (Raises (Client.TypeError "Object of type set is not JSON serializable"))
          | Some data =>
              if update_sent
              then mkChat [data] (Coordinator.trace (Coordinator.supervise conn done)) Returns
              else mkChat [] closing SendRaises
          end
      end
  end.

End Voice.

(** * Properties *)

(** ** The playback queue is drained in order *)

Section AudioFacts.
Import Audio.

(** What the loop of [callback] keeps: nothing is lost or reordered between
    [data] and the queue, [data] never exceeds the request, and the loop
    stops short of the request only on an empty queue. *)
Lemma drain_spec frames data q :
  (length data <= frames)%nat ->
  fst (drain frames data q) ++ concat (snd (drain frames data q)) = data ++ concat q
  /\ length (fst (drain frames data q)) = Nat.min frames (length data + length (concat q))
  /\ ((length (fst (drain frames data q)) < frames)%nat -> snd (drain frames data q) = []).
Proof.
  funelim (drain frames data q); intros Hle; simpl.
  - repeat split; [lia | lia].
  - repeat split; simpl; lia.
  - destruct H as (H1 & H2 & H3).
    { rewrite length_app, length_take. lia. }
    repeat split.
    + rewrite H1. simpl. rewrite <- !app_assoc. f_equal.
      rewrite app_assoc, take_drop. reflexivity.
    + rewrite H2. simpl. rewrite !length_app, length_take, length_drop. lia.
    + exact H3.
  - destruct H as (H1 & H2 & H3).
    { rewrite length_app, length_take. lia. }
    repeat split.
    + rewrite H1, take_ge by lia. rewrite <- app_assoc. reflexivity.
    + rewrite H2, take_ge by lia. rewrite !length_app. lia.
    + exact H3.
Qed.

Lemma callback_output p frames :
  fst (callback p frames)
  = firstn frames (concat (queue p)) ++ repeat 0%Z (frames - length (concat (queue p)))
  /\ concat (queue (snd (callback p frames))) = skipn frames (concat (queue p))
  /\ ((length (concat (queue p)) < frames)%nat -> queue (snd (callback p frames)) = []).
Proof.
  unfold callback.
  destruct (drain_spec frames [] (queue p)) as (H1 & H2 & H3); [simpl; lia |].
  destruct (drain frames [] (queue p)) as [data q] eqn:E. simpl in *.
  assert (HL : length (concat (queue p)) = (length data + length (concat q))%nat).
  { rewrite <- H1, length_app. reflexivity. }
  destruct (decide (length data < frames)) as [Hlt | Hge]; simpl.
  - assert (Hq : concat q = []) by (apply length_zero_iff_nil; lia).
    rewrite Hq, app_nil_r in H1. subst data.
    rewrite take_ge, drop_ge by lia. rewrite Hq. auto.
  - assert (Hf : length data = frames) by lia.
    rewrite <- H1, length_app.
    replace (frames - _)%nat with 0%nat by lia.
    rewrite <- Hf at 1 2. rewrite take_app_length, drop_app_length.
    simpl. rewrite app_nil_r. repeat split. intros; lia.
Qed.

Lemma add_data_queue p data p' :
  add_data p data = Some p' ->
  exists pcm, frombuffer_int16 data = Some pcm /\ queue p' = queue p ++ [pcm].
Proof.
  unfold add_data. destruct (frombuffer_int16 data) as [pcm |]; [| discriminate].
  intros H. inversion H; subst p'. exists pcm. split; [reflexivity |].
  simpl. destruct (playing p); reflexivity.
Qed.

Lemma add_all_queue pushed : forall p p',
  add_all p pushed = Some p' ->
  exists chunks, decode_all pushed = Some chunks /\ queue p' = queue p ++ chunks.
Proof.
  induction pushed as [| data rest IH]; intros p p' H; simpl in *.
  - inversion H; subst. exists []. rewrite app_nil_r. auto.
  - destruct (add_data p data) as [p1 |] eqn:E; [| discriminate].
    destruct (add_data_queue _ _ _ E) as (pcm & Hpcm & Hq).
    destruct (IH _ _ H) as (chunks & Hd & Hq').
    exists (pcm :: chunks). rewrite Hpcm, Hd, Hq', Hq, <- app_assoc. auto.
Qed.

(** C2. Whatever chunks were pushed into a new player, a pull of [frames]
    samples writes the first [frames] samples of their concatenation and
    leaves the rest in the queue, in order; when fewer than [frames] samples
    were pushed it writes them all, then zeros, and the queue is empty. *)
Theorem callback_drains_in_order (pushed : list (list byte)) (p : AudioPlayerAsync)
    (frames : nat) :
  add_all new_player pushed = Some p ->
  exists chunks,
    decode_all pushed = Some chunks /\ queue p = chunks /\
    let samples := concat chunks in
    let out := fst (callback p frames) in
    let p' := snd (callback p frames) in
    ((frames <= length samples)%nat ->
       out = firstn frames samples /\
       concat (queue p') = skipn frames samples /\
       length (concat (queue p')) = (length samples - frames)%nat) /\
    ((length samples < frames)%nat ->
       out = samples ++ repeat 0%Z (frames - length samples) /\
       queue p' = []).
Proof.
  intros H. destruct (add_all_queue _ _ _ H) as (chunks & Hd & Hq).
  simpl in Hq. exists chunks. split; [exact Hd |]. split; [exact Hq |].
  destruct (callback_output p frames) as (Ho & Hr & He). rewrite Hq in *.
  simpl. split.
  - intros Hle. rewrite Ho, Hr.
    replace (frames - _)%nat with 0%nat by lia. simpl. rewrite app_nil_r.
    rewrite length_drop. auto.
  - intros Hlt. rewrite Ho, take_ge by lia. auto.
Qed.

Lemma callback_drains_in_order_witness :
  add_all new_player [[x01; x00; x02; x00]; [xff; xff]]
  = Some (mkPlayer [[1%Z; 2%Z]; [(-1)%Z]] true true false) /\
  fst (callback (mkPlayer [[1%Z; 2%Z]; [(-1)%Z]] true true false) 2) = [1%Z; 2%Z].
Proof.
  split; [reflexivity |].
  destruct (callback_drains_in_order [[x01; x00; x02; x00]; [xff; xff]]
              (mkPlayer [[1%Z; 2%Z]; [(-1)%Z]] true true false) 2 eq_refl)
    as (chunks & Hd & Hq & Hle & _).
  simpl in Hq. subst chunks.
  destruct Hle as (Ho & _); [simpl; lia | exact Ho].
Defined.

(** C5. After [stop] the queue is empty, so a push made right after it is
    alone in the queue: whatever is pulled next is made of that push and of
    zeros, with nothing of what the queue held before [stop]. *)
Theorem stop_then_push_plays_only_the_push (p : AudioPlayerAsync) :
  queue (stop p) = [] /\
  forall data p' frames,
    add_data (stop p) data = Some p' ->
    exists pcm,
      frombuffer_int16 data = Some pcm /\ queue p' = [pcm] /\
      fst (callback p' frames) = firstn frames pcm ++ repeat 0%Z (frames - length pcm).
Proof.
  split; [reflexivity |].
  intros data p' frames H.
  destruct (add_data_queue _ _ _ H) as (pcm & Hpcm & Hq). simpl in Hq.
  exists pcm. split; [exact Hpcm |]. split; [exact Hq |].
  destruct (callback_output p' frames) as (Ho & _). rewrite Ho, Hq. simpl.
  rewrite app_nil_r. reflexivity.
Qed.

Lemma stop_then_push_plays_only_the_push_witness :
  add_data (stop (mkPlayer [[7%Z; 8%Z]; [9%Z]] true true false)) [x05; x00]
  = Some (mkPlayer [[5%Z]] true true false) /\
  fst (callback (mkPlayer [[5%Z]] true true false) 3) = [5%Z; 0%Z; 0%Z].
Proof.
  split; [reflexivity |].
  destruct (proj2 (stop_then_push_plays_only_the_push
                     (mkPlayer [[7%Z; 8%Z]; [9%Z]] true true false))
              [x05; x00] (mkPlayer [[5%Z]] true true false) 3 eq_refl)
    as (pcm & Hpcm & Hq & Ho).
  injection Hpcm as <-. exact Ho.
Defined.

End AudioFacts.

(** ** The receive loop follows the wire protocol *)

Section ReceiveFacts.
Import Audio Py Receive.

Variable json_loads : string -> option pyval.
Variable b64decode : string -> option (list byte).
Variable py_ne : pyval -> pyval -> bool.

Lemma add_data_push p data pcm :
  frombuffer_int16 data = Some pcm -> add_data p data = Some (push pcm p).
Proof.
  intros H. unfold add_data, push. rewrite H. simpl.
  destruct (playing p) eqn:E; unfold start; simpl; rewrite ?E; reflexivity.
Qed.

Ltac same := unfold same_but_last; simpl; repeat split; congruence.

(** One frame of the protocol does to the state what its kind expects. *)
Lemma on_frame_classified s s0 raw k :
  status s = Running ->
  classify json_loads b64decode raw = Some k ->
  same_but_last s s0 ->
  same_but_last (on_frame json_loads b64decode py_ne s raw) (expect k s0).
Proof.
  intros Hrun Hk (Ht & Hp & Ho & Hl & Hs).
  unfold on_frame, classify in *. rewrite Hrun.
  destruct (json_loads raw) as [event |].
  2:{ inversion Hk; subst k. same. }
  unfold dispatch.
  destruct (py_get event "type" PNone) as [ty |]; [| discriminate].
  destruct (py_get event "delta" (PStr "")) as [delta |] eqn:Ed; [| discriminate].
  destruct (is_str ty "response.audio.delta").
  { destruct (py_get event "item_id" PNone) as [item |] eqn:Ei.
    2:{ destruct event; discriminate. }
    destruct delta as [| | | | d | | |]; try discriminate.
    destruct (b64decode d) as [bytes_data |]; [| discriminate].
    destruct (frombuffer_int16 bytes_data) as [pcm |] eqn:Ef; [| discriminate].
    inversion Hk; subst k.
    destruct (py_ne item (last_audio_item_id s)); simpl;
      rewrite (add_data_push _ _ _ Ef); same. }
  destruct (is_str ty "response.audio_transcript.delta").
  { destruct delta; try discriminate. inversion Hk; subst k. same. }
  destruct (is_str ty "response.done").
  { inversion Hk; subst k. same. }
  inversion Hk; subst k. same.
Qed.

Lemma expect_running k s : status s = Running -> status (expect k s) = Running.
Proof. destruct k; simpl; auto. Qed.

Lemma run_classified frames : forall s s0 ks,
  status s = Running ->
  classify_all json_loads b64decode frames = Some ks ->
  same_but_last s s0 ->
  same_but_last (run json_loads b64decode py_ne s frames)
                (fold_left (fun st k => expect k st) ks s0).
Proof.
  induction frames as [| raw rest IH]; intros s s0 ks Hrun Hks Hsame; simpl in *.
  - inversion Hks; subst. exact Hsame.
  - destruct (classify json_loads b64decode raw) as [k |] eqn:Ek; [| discriminate].
    destruct (classify_all json_loads b64decode rest) as [ks' |] eqn:Eks; [| discriminate].
    inversion Hks; subst ks. simpl.
    pose proof (on_frame_classified s s0 raw k Hrun Ek Hsame) as Hstep.
    apply IH; auto.
    destruct Hstep as (_ & _ & _ & _ & ->). apply expect_running.
    destruct Hsame as (_ & _ & _ & _ & <-). exact Hrun.
Qed.

(** What a classified stream leaves behind. *)
Lemma expect_fold ks : forall s,
  let s' := fold_left (fun st k => expect k st) ks s in
  status s' = status s /\
  queue (audio_player s') = queue (audio_player s) ++ chunks_of ks /\
  stream_closed (audio_player s') = stream_closed (audio_player s) /\
  stdout s' = stdout s ++ map (String.append "Final Transcript: ")
                              (transcripts (transcript s) ks) /\
  transcript s' = pending (transcript s) ks /\
  length (List.filter is_decode_error (log s'))
  = (length (List.filter is_decode_error (log s)) + decode_errors ks)%nat.
Proof.
  induction ks as [| k rest IH]; intros s; simpl.
  - rewrite !app_nil_r. repeat split; lia.
  - specialize (IH (expect k s)). simpl in IH.
    destruct IH as (H1 & H2 & H3 & H4 & H5 & H6).
    rewrite H1, H2, H3, H4, H5, H6.
    destruct k; simpl; rewrite <- ?app_assoc; simpl; repeat split;
      rewrite ?List.filter_app, ?length_app; simpl; lia.
Qed.

Lemma same_but_last_refl s : same_but_last s s.
Proof. unfold same_but_last. tauto. Qed.

(** C3. Three audio deltas of item "A" with chunks of 100, 200 and 300
    samples, the fragments "Hel" and "lo", then [response.done]: the three
    chunks are in the playback queue in that order, "Hello" is the
    transcript printed, and the transcript is empty again for the next
    turn. *)
Theorem three_chunks_then_hello (r1 r2 r3 r4 r5 r6 : string) (c1 c2 c3 : chunk) :
  classify json_loads b64decode r1 = Some (KAudio c1) ->
  classify json_loads b64decode r2 = Some (KAudio c2) ->
  classify json_loads b64decode r3 = Some (KAudio c3) ->
  item_id_of json_loads r1 = Some (PStr "A") ->
  item_id_of json_loads r2 = Some (PStr "A") ->
  item_id_of json_loads r3 = Some (PStr "A") ->
  length c1 = 100%nat -> length c2 = 200%nat -> length c3 = 300%nat ->
  classify json_loads b64decode r4 = Some (KText "Hel") ->
  classify json_loads b64decode r5 = Some (KText "lo") ->
  classify json_loads b64decode r6 = Some KDone ->
  let s := receive_audio_and_playback json_loads b64decode py_ne
             [r1; r2; r3; r4; r5; r6] in
  queue (audio_player s) = [c1; c2; c3] /\
  stdout s = ["Final Transcript: Hello"] /\
  transcript s = "" /\
  status s = Running.
Proof.
  intros H1 H2 H3 _ _ _ _ _ _ H4 H5 H6 s.
  assert (Hks : classify_all json_loads b64decode [r1; r2; r3; r4; r5; r6]
                = Some [KAudio c1; KAudio c2; KAudio c3; KText "Hel"; KText "lo"; KDone]).
  { simpl. rewrite H1, H2, H3, H4, H5, H6. reflexivity. }
  pose proof (run_classified _ initial initial _ eq_refl Hks (same_but_last_refl _))
    as (Ht & Hp & Ho & _ & Hs).
  fold (receive_audio_and_playback json_loads b64decode py_ne [r1; r2; r3; r4; r5; r6]) in *.
  fold s in Ht, Hp, Ho, Hs.
  rewrite Hp, Ho, Ht, Hs. simpl. auto.
Qed.


(** C9. A malformed frame in the middle of a turn empties the transcript
    before the next frame is read, and nothing that follows depends on the
    fragments gathered before it: with any other transcript in their place
    the loop goes on through the same states. *)
Theorem malformed_frame_resets_transcript (s : ReceiveState) (bad : string) :
  status s = Running ->
  json_loads bad = None ->
  transcript (on_frame json_loads b64decode py_ne s bad) = "" /\
  forall (gathered : string) (rest : list string),
    run json_loads b64decode py_ne (set_transcript gathered s) (bad :: rest)
    = run json_loads b64decode py_ne s (bad :: rest).
Proof.
  intros Hrun Hbad. unfold on_frame. rewrite Hrun, Hbad. split; [reflexivity |].
  intros gathered rest. simpl. f_equal.
  unfold on_frame. simpl. rewrite Hrun, Hbad. reflexivity.
Qed.

End ReceiveFacts.

Section ReceiveRuns.
Import Audio Py Receive Examples.

Lemma three_chunks_then_hello_witness :
  let s := receive_audio_and_playback json_loads b64decode py_ne
             [audio_frame "A" silence_100; audio_frame "A" silence_200;
              audio_frame "A" silence_300; transcript_frame "Hel";
              transcript_frame "lo"; done_frame] in
  queue (audio_player s) = [repeat 0%Z 100; repeat 0%Z 200; repeat 0%Z 300] /\
  stdout s = ["Final Transcript: Hello"] /\
  transcript s = "" /\
  status s = Running.
Proof.
  apply (three_chunks_then_hello json_loads b64decode py_ne); vm_compute; reflexivity.
Defined.


Lemma malformed_frame_resets_transcript_witness :
  transcript (on_frame json_loads b64decode py_ne
                (run json_loads b64decode py_ne initial [transcript_frame "Hel"])
                "{oops") = "".
Proof.
  apply (malformed_frame_resets_transcript json_loads b64decode py_ne
           (run json_loads b64decode py_ne initial [transcript_frame "Hel"]) "{oops");
    vm_compute; reflexivity.
Defined.

End ReceiveRuns.

(** ** Strings *)

Section StringFacts.
Import Py.

Lemma append_cons (x : ascii) (a b : string) : String x a +:+ b = String x (a +:+ b).
Proof. reflexivity. Qed.

Lemma append_nil_l (b : string) : "" +:+ b = b.
Proof. reflexivity. Qed.

Lemma append_assoc (a b c : string) : (a +:+ b) +:+ c = a +:+ (b +:+ c).
Proof.
  induction a as [| x a IH]; [reflexivity |].
  rewrite !append_cons, IH. reflexivity.
Qed.

Lemma append_nil_r (a : string) : a +:+ "" = a.
Proof.
  induction a as [| x a IH]; [reflexivity |].
  rewrite append_cons, IH. reflexivity.
Qed.

Lemma append_length (a b : string) :
  String.length (a +:+ b) = (String.length a + String.length b)%nat.
Proof.
  induction a as [| x a IH]; [reflexivity |].
  rewrite append_cons. simpl. rewrite IH. reflexivity.
Qed.

Lemma prefix_app old : forall a b tail,
  absent b old ->
  String.prefix old (a +:+ String b tail) = String.prefix old a.
Proof.
  induction old as [| o old IH]; intros a b tail Hb; [destruct a; reflexivity |].
  destruct Hb as [Hne Hb]. destruct a as [| x a].
  - rewrite append_nil_l. simpl. destruct (ascii_dec o b); [contradiction | reflexivity].
  - rewrite append_cons. simpl. destruct (ascii_dec o x); [apply IH; exact Hb | reflexivity].
Qed.

Lemma prefix_length old : forall a,
  String.prefix old a = true -> (String.length old <= String.length a)%nat.
Proof.
  induction old as [| o old IH]; intros a H; simpl; [lia |].
  destruct a as [| x a]; simpl in *; [discriminate |].
  destruct (ascii_dec o x); [| discriminate]. specialize (IH a H). lia.
Qed.

(** Replacement does not reach across a character that [old] lacks. *)
Lemma replace_from_app old new b tail : absent b old ->
  forall a skip, (skip <= String.length a)%nat ->
  replace_from old new skip (a +:+ String b tail)
  = replace_from old new skip a +:+ replace_from old new 0 (String b tail).
Proof.
  intros Hb. induction a as [| x a IH]; intros skip Hskip.
  - simpl in Hskip. replace skip with 0%nat by lia. reflexivity.
  - destruct skip as [| k].
    + rewrite append_cons. cbn [replace_from]. rewrite <- append_cons.
      rewrite (prefix_app old (String x a) b tail Hb).
      destruct (String.prefix old (String x a)) eqn:E.
      * pose proof (prefix_length _ _ E) as Hl. simpl in Hl.
        rewrite IH by lia. rewrite append_assoc. reflexivity.
      * rewrite IH by lia. reflexivity.
    + rewrite append_cons. cbn [replace_from]. apply IH. simpl in Hskip. lia.
Qed.

Lemma str_replace_app old new a b tail : absent b old ->
  str_replace old new (a +:+ String b tail)
  = str_replace old new a +:+ str_replace old new (String b tail).
Proof. intros Hb. apply replace_from_app; [exact Hb | lia]. Qed.

Lemma prefix_refl_app needle : forall back, String.prefix needle (needle +:+ back) = true.
Proof.
  induction needle as [| x n IH]; intros back; [destruct back; reflexivity |].
  rewrite append_cons. simpl. destruct (ascii_dec x x); [apply IH | contradiction].
Qed.

Lemma contains_app needle back : forall front,
  contains needle (front +:+ needle +:+ back) = true.
Proof.
  induction front as [| x f IH].
  - rewrite append_nil_l. pose proof (prefix_refl_app needle back) as H.
    destruct (needle +:+ back); cbn [contains]; rewrite H; reflexivity.
  - rewrite append_cons. cbn [contains]. rewrite IH. apply orb_true_r.
Qed.

End StringFacts.

Section ClientFacts.
Import Py Client.

(** *** Credentials *)





(** *** One connection for each client *)








End ClientFacts.

Section UrlFacts.
Import Py Client.

Lemma query_url_front c model agent :
  query_url c model agent
  = query_front c model agent
    +:+ "&agent_access_token=" +:+ fmt (_foundry_token c)
    +:+ "&Authorization=Bearer+" +:+ fmt (_token c).
Proof. unfold query_url, query_front. rewrite !append_assoc. reflexivity. Qed.

Lemma amp_absent : absent "&" "https://".
Proof. simpl. repeat split; discriminate. Qed.

Lemma to_wss_param (a name tail : string) :
  to_wss (a +:+ String "&" name +:+ tail)
  = to_wss a +:+ to_wss (String "&" name +:+ tail).
Proof. exact (str_replace_app _ _ a "&" (name +:+ tail) amp_absent). Qed.

(** No occurrence of "https://" begins in the two parameter names. *)
Lemma to_wss_access_token (tail : string) :
  to_wss ("&agent_access_token=" +:+ tail) = "&agent_access_token=" +:+ to_wss tail.
Proof. reflexivity. Qed.

Lemma to_wss_authorization (tail : string) :
  to_wss ("&Authorization=Bearer+" +:+ tail) = "&Authorization=Bearer+" +:+ to_wss tail.
Proof. reflexivity. Qed.

(** The URL of [connect]: the scheme replacement reaches the two tokens
    only inside themselves. *)
Lemma to_wss_url c model agent :
  to_wss (query_url c model agent)
  = to_wss (query_front c model agent)
    +:+ "&agent_access_token=" +:+ to_wss (fmt (_foundry_token c))
    +:+ "&Authorization=Bearer+" +:+ to_wss (fmt (_token c)).
Proof.
  rewrite query_url_front.
  rewrite to_wss_param. f_equal.
  rewrite to_wss_access_token, to_wss_param, to_wss_authorization.
  reflexivity.
Qed.

Lemma connect_makes c model agent request_id :
  _connection c = None -> model <> "" ->
  let conn := mkConnection (to_wss (query_url c model agent)) (headers c request_id) None in
  connect c model agent request_id = (set_connection (Some conn) c, inr conn).
Proof.
  intros Hc Hm. unfold connect. rewrite Hc.
  destruct (String.eqb_spec model ""); [contradiction | reflexivity].
Qed.

(** C10, as the code has it.  On a client that holds no connection yet and
    for a model name that is not empty: a foundry token [ft] without
    "https://" in it stands in the URL as [&agent_access_token=ft], and a
    bearer token [t] without "https://" in it ends the URL as
    [&Authorization=Bearer+t]; when [t] is not empty it is also the
    [Authorization] header, [Bearer t]. *)
Theorem connect_url_carries_tokens (c : AsyncAzureVoiceLive) (model : string)
    (agent : option string) (request_id : string) :
  _connection c = None ->
  model <> "" ->
  exists conn,
    connect c model agent request_id = (set_connection (Some conn) c, inr conn) /\
    (forall ft, _foundry_token c = Some ft -> to_wss ft = ft ->
       exists front back,
         conn_url conn = front +:+ "&agent_access_token=" +:+ ft +:+ back) /\
    (forall t, _token c = Some t -> to_wss t = t ->
       (exists front, conn_url conn = front +:+ "&Authorization=Bearer+" +:+ t) /\
       (t <> "" ->
        conn_additional_headers conn !! "Authorization" = Some (Some ("Bearer " +:+ t)))).
Proof.
  intros Hc Hm. eexists. split; [apply connect_makes; assumption |]. simpl.
  rewrite to_wss_url. split.
  - intros ft Hft Hclean. rewrite Hft. simpl. rewrite Hclean.
    exists (to_wss (query_front c model agent)),
           ("&Authorization=Bearer+" +:+ to_wss (fmt (_token c))).
    reflexivity.
  - intros t Ht Hclean. rewrite Ht. simpl fmt at 2. rewrite Hclean. split.
    + exists (to_wss (query_front c model agent)
              +:+ "&agent_access_token=" +:+ to_wss (fmt (_foundry_token c))).
      rewrite !append_assoc. reflexivity.
    + intros Hne. unfold headers, auth_header. rewrite Ht. simpl.
      destruct (String.eqb_spec t ""); [contradiction |]. simpl.
      rewrite lookup_union_l'; [apply lookup_singleton_eq |].
      rewrite lookup_singleton_eq. eauto.
Qed.

Lemma connect_url_carries_tokens_witness :
  exists conn,
    connect Examples.sample_client "gpt" None "rid" = (set_connection (Some conn) Examples.sample_client, inr conn) /\
    conn_additional_headers conn !! "Authorization" = Some (Some "Bearer tok").
Proof.
  destruct (connect_url_carries_tokens Examples.sample_client "gpt" None "rid" eq_refl)
    as (conn & Hconn & _ & Ht); [discriminate |].
  exists conn. split; [exact Hconn |].
  destruct (Ht "tok" eq_refl eq_refl) as [_ Hh]. apply Hh. discriminate.
Defined.

(** C10, as the claim words it, fails for a token that has "https://" in
    it: the replacement of the scheme rewrites the token too, and the URL
    no longer contains it. *)
Lemma connect_url_rewrites_token :
  let c := mkClient None "https://voice.example" None None (Some "2025-05-01-preview")
             (Some (fun _ => "https://t")) None None (Some "https://t") None in
  match snd (connect c "gpt" None "rid") with
  | inr conn =>
      _token c = Some "https://t" /\
      contains "Authorization=Bearer+https://t" (conn_url conn) = false /\
      contains "Authorization=Bearer+wss://t" (conn_url conn) = true
  | inl _ => False
  end.
Proof. vm_compute. repeat split. Qed.

End UrlFacts.

(** ** The coordinator *)

Section CoordinatorFacts.
Import Client Coordinator.

(** C1, as the code has it.  Whichever tasks are done when the wait
    returns, the coordinator asks the send and the receive task to cancel
    (a request a finished task ignores), so that neither is left to run;
    it then closes the channel, once, and prints its last line. *)
Theorem supervise_cancels_and_closes_once (conn : AsyncVoiceLiveConnection)
    (done : Activity -> bool) :
  let s := supervise conn done in
  task s SendTask = (if done SendTask then Done else CancelRequested) /\
  task s ReceiveTask = (if done ReceiveTask then Done else CancelRequested) /\
  closes (trace s) = 1%nat /\
  conn_websocket (channel s) = None /\
  exists before,
    trace s = before ++ [CloseChannel; Printed "Chat done."] /\
    In (Cancel SendTask) before /\ In (Cancel ReceiveTask) before.
Proof.
  simpl. destruct (done SendTask), (done ReceiveTask); repeat split;
    exists [Printed "Starting the chat ..."; Cancel SendTask; Cancel ReceiveTask];
    simpl; repeat split; auto.
Qed.

(** C1, as the claim words it, fails when the send task is the first to
    complete: the keyboard task is not cancelled. *)
Lemma keyboard_task_is_left_running :
  ~ (forall first a conn,
       a <> first -> task (supervise conn (only first)) a = CancelRequested).
Proof.
  intros H.
  specialize (H SendTask KeyboardTask (mkConnection "" ∅ None)).
  discriminate H. discriminate.
Qed.

End CoordinatorFacts.

(** ** JSON text is read back as it was written *)

Section JsonText.
Import Py Json.

Variable float_canon : string -> string.

(** *** Strings *)

Lemma scan_escape_char (c : ascii) (tail : string) :
  scan_string (escape_char c +:+ tail) = cons_char c (scan_string tail).
Proof.
  destruct c as [[] [] [] [] [] [] [] []]; reflexivity.
Qed.

Lemma scan_escape (s rest : string) :
  scan_string (escape s +:+ String dquote rest) = Some (s, rest).
Proof.
  induction s as [| c s IH]; [reflexivity |].
  simpl escape. rewrite append_assoc, scan_escape_char, IH. reflexivity.
Qed.

Lemma parse_encoded_string fuel (s rest : string) :
  parse_value float_canon (S fuel) (encode_string s +:+ rest) = Some (PStr s, rest).
Proof.
  unfold encode_string. rewrite append_cons, append_assoc.
  cbn [parse_value]. rewrite Ascii.eqb_refl.
  rewrite (append_cons dquote "" rest), append_nil_l, scan_escape. reflexivity.
Qed.

(** *** Numbers *)

Lemma delimited_not_digit c rest : delimited (String c rest) -> is_digit c = false.
Proof. intros [-> | [-> | ->]]; reflexivity. Qed.

(** The scanners of a number read the same thing when a delimiter follows. *)
Lemma span_digits_app rest : delimited rest ->
  forall a ds r, span_digits a = (ds, r) -> span_digits (a +:+ rest) = (ds, r +:+ rest).
Proof.
  intros Hrest. induction a as [| x a IH]; intros ds r H.
  - inversion H; subst. rewrite append_nil_l.
    destruct rest as [| c rest']; [reflexivity |].
    simpl. rewrite (delimited_not_digit _ _ Hrest). reflexivity.
  - rewrite append_cons. simpl in *. destruct (is_digit x).
    + destruct (span_digits a) as [ds' r'] eqn:E. inversion H; subst.
      rewrite (IH ds' r eq_refl). reflexivity.
    + inversion H; subst. reflexivity.
Qed.

Lemma scan_sign_app plus rest : delimited rest ->
  forall a sg r, scan_sign plus a = (sg, r) -> scan_sign plus (a +:+ rest) = (sg, r +:+ rest).
Proof.
  intros Hrest a sg r H. destruct a as [| x a].
  - inversion H; subst. rewrite append_nil_l.
    destruct rest as [| c rest']; [reflexivity |].
    destruct Hrest as [-> | [-> | ->]]; destruct plus; reflexivity.
  - rewrite append_cons. simpl in *.
    destruct (Ascii.eqb x "-" || plus && Ascii.eqb x "+"); inversion H; subst; reflexivity.
Qed.

Lemma scan_int_app rest : delimited rest ->
  forall a ip r, scan_int a = Some (ip, r) -> scan_int (a +:+ rest) = Some (ip, r +:+ rest).
Proof.
  intros Hrest a ip r H. destruct a as [| x a]; [discriminate |].
  rewrite append_cons. unfold scan_int in *. destruct (Ascii.eqb x "0").
  - inversion H; subst. reflexivity.
  - rewrite <- append_cons.
    destruct (span_digits (String x a)) as [ds r'] eqn:E.
    rewrite (span_digits_app rest Hrest _ _ _ E).
    destruct ds; [discriminate |]. inversion H; subst. reflexivity.
Qed.

Lemma scan_frac_app rest : delimited rest ->
  forall a f r, scan_frac a = (f, r) -> scan_frac (a +:+ rest) = (f, r +:+ rest).
Proof.
  intros Hrest a f r H. destruct a as [| x a].
  - inversion H; subst. rewrite append_nil_l.
    destruct rest as [| c rest']; [reflexivity |].
    destruct Hrest as [-> | [-> | ->]]; reflexivity.
  - rewrite append_cons. unfold scan_frac in *. destruct (Ascii.eqb x ".").
    + destruct (span_digits a) as [ds r'] eqn:E.
      rewrite (span_digits_app rest Hrest _ _ _ E).
      destruct ds; inversion H; subst; reflexivity.
    + inversion H; subst. reflexivity.
Qed.

Lemma scan_exp_app rest : delimited rest ->
  forall a e r, scan_exp a = (e, r) -> scan_exp (a +:+ rest) = (e, r +:+ rest).
Proof.
  intros Hrest a e r H. destruct a as [| x a].
  - inversion H; subst. rewrite append_nil_l.
    destruct rest as [| c rest']; [reflexivity |].
    destruct Hrest as [-> | [-> | ->]]; reflexivity.
  - rewrite append_cons. unfold scan_exp in *.
    destruct (Ascii.eqb x "e" || Ascii.eqb x "E").
    + destruct (scan_sign true a) as [sg r1] eqn:Es.
      rewrite (scan_sign_app true rest Hrest _ _ _ Es).
      destruct (span_digits r1) as [ds r'] eqn:E.
      rewrite (span_digits_app rest Hrest _ _ _ E).
      destruct ds; inversion H; subst; reflexivity.
    + inversion H; subst. reflexivity.
Qed.

Lemma scan_number_app rest : delimited rest ->
  forall a v r,
    scan_number float_canon a = Some (v, r) ->
    scan_number float_canon (a +:+ rest) = Some (v, r +:+ rest).
Proof.
  intros Hrest a v r H. unfold scan_number in *.
  destruct (scan_sign false a) as [sg s1] eqn:Es.
  rewrite (scan_sign_app false rest Hrest _ _ _ Es).
  destruct (scan_int s1) as [[ip s2] |] eqn:Ei; [| discriminate].
  rewrite (scan_int_app rest Hrest _ _ _ Ei).
  destruct (scan_frac s2) as [frac s3] eqn:Ef.
  rewrite (scan_frac_app rest Hrest _ _ _ Ef).
  destruct (scan_exp s3) as [ex s4] eqn:Ee.
  rewrite (scan_exp_app rest Hrest _ _ _ Ee).
  destruct frac, ex; inversion H; subst; reflexivity.
Qed.

(** The digits of a positive number: all digits, the first one not [0]. *)
Lemma span_digits_uint (d : Decimal.uint) :
  span_digits (DecimalString.NilEmpty.string_of_uint d) = (DecimalString.NilEmpty.string_of_uint d, "").
Proof. induction d; simpl; rewrite ?IHd; reflexivity. Qed.

Lemma nzhead_not_D0 (d d' : Decimal.uint) : Decimal.nzhead d <> Decimal.D0 d'.
Proof. induction d; simpl; try discriminate; exact IHd. Qed.

Lemma to_uint_head (p : positive) :
  match Pos.to_uint p with
  | Decimal.Nil | Decimal.D0 _ => False
  | _ => True
  end.
Proof.
  pose proof (DecimalPos.Unsigned.to_of (Pos.to_uint p)) as H.
  rewrite DecimalPos.Unsigned.of_to in H. simpl in H.
  pose proof (DecimalPos.Unsigned.to_uint_nonzero p) as Hz.
  pose proof (nzhead_not_D0 (Pos.to_uint p)) as Hn.
  unfold Decimal.unorm in H.
  destruct (Decimal.nzhead (Pos.to_uint p)) eqn:E; rewrite H; try exact I.
  - apply Hz. rewrite H. reflexivity.
  - exact (Hn _ eq_refl).
Qed.

Lemma scan_int_pos (p : positive) :
  scan_int (DecimalString.NilEmpty.string_of_uint (Pos.to_uint p))
  = Some (DecimalString.NilEmpty.string_of_uint (Pos.to_uint p), "").
Proof.
  pose proof (to_uint_head p) as H. pose proof (span_digits_uint (Pos.to_uint p)) as Hs.
  destruct (Pos.to_uint p); try contradiction;
    unfold scan_int; cbn [DecimalString.NilEmpty.string_of_uint] in *; rewrite Hs; reflexivity.
Qed.

Lemma int_of_digits_pos (p : positive) :
  int_of_digits (DecimalString.NilEmpty.string_of_uint (Pos.to_uint p)) = Zpos p.
Proof.
  unfold int_of_digits. rewrite DecimalString.NilEmpty.usu.
  change (Pos.to_uint p) with (N.to_uint (Npos p)).
  rewrite DecimalN.Unsigned.of_to. reflexivity.
Qed.

Lemma scan_sign_digits (p : positive) :
  scan_sign false (DecimalString.NilEmpty.string_of_uint (Pos.to_uint p))
  = ("", DecimalString.NilEmpty.string_of_uint (Pos.to_uint p)).
Proof.
  pose proof (to_uint_head p) as H.
  destruct (Pos.to_uint p); try contradiction; reflexivity.
Qed.

Lemma scan_print_int (n : Z) : scan_number float_canon (print_int n) = Some (PInt n, "").
Proof.
  destruct n as [| p | p]; [reflexivity | |].
  - unfold scan_number, print_int. cbn [N.to_uint].
    rewrite scan_sign_digits, scan_int_pos. simpl. rewrite int_of_digits_pos. reflexivity.
  - unfold scan_number, print_int. cbn [N.to_uint scan_sign]. simpl.
    rewrite scan_int_pos. simpl. rewrite int_of_digits_pos. reflexivity.
Qed.

(** *** Values *)

Lemma opens_number_facts c :
  opens_number c = true ->
  opens_value c = true /\ Ascii.eqb c dquote = false /\ Ascii.eqb c "[" = false /\
  Ascii.eqb c "{" = false /\ Ascii.eqb "n" c = false /\ Ascii.eqb "t" c = false /\
  Ascii.eqb "f" c = false.
Proof.
  destruct c as [[] [] [] [] [] [] [] []]; intros H; try discriminate H;
    repeat split; reflexivity.
Qed.

Lemma scan_number_head a v r :
  scan_number float_canon a = Some (v, r) ->
  exists c t, a = String c t /\ opens_number c = true.
Proof.
  unfold scan_number. destruct a as [| c t]; [discriminate |]. intros H.
  exists c, t. split; [reflexivity |]. unfold opens_number.
  unfold scan_sign in H. destruct (Ascii.eqb c "-") eqn:Ec; [reflexivity |].
  simpl in H. unfold scan_int in H.
  destruct (Ascii.eqb c "0") eqn:E0.
  - apply Ascii.eqb_eq in E0. subst c. reflexivity.
  - simpl in H. destruct (is_digit c); [reflexivity | discriminate].
Qed.

Lemma parse_number fuel a v rest :
  scan_number float_canon a = Some (v, "") -> delimited rest ->
  parse_value float_canon (S fuel) (a +:+ rest) = Some (v, rest).
Proof.
  intros Ha Hrest. destruct (scan_number_head _ _ _ Ha) as (c & t & -> & Hc).
  destruct (opens_number_facts c Hc) as (_ & H1 & H2 & H3 & H4 & H5 & H6).
  pose proof (scan_number_app rest Hrest _ _ _ Ha) as Happ.
  rewrite append_cons in *. cbn [parse_value]. rewrite H1, H2, H3.
  unfold scan_atom. cbn [strip_prefix]. rewrite H4, H5, H6, Happ. reflexivity.
Qed.

Lemma float_ok_cases repr :
  float_ok float_canon repr = true ->
  repr = "nan" \/ repr = "inf" \/ repr = "-inf" \/
  (floatstr repr = repr /\ scan_number float_canon repr = Some (PFloat repr, "")).
Proof.
  unfold float_ok, floatstr.
  destruct (String.eqb_spec repr "nan"); [auto |].
  destruct (String.eqb_spec repr "inf"); [auto |].
  destruct (String.eqb_spec repr "-inf"); [auto |]. simpl.
  destruct (scan_number float_canon repr) as [[v r] |]; [| discriminate].
  destruct v; try discriminate. destruct r; [| discriminate].
  intros H. apply String.eqb_eq in H. subst. auto.
Qed.

Lemma parse_float fuel repr rest :
  float_ok float_canon repr = true -> delimited rest ->
  parse_value float_canon (S fuel) (floatstr repr +:+ rest) = Some (PFloat repr, rest).
Proof.
  intros Hok Hrest.
  destruct (float_ok_cases repr Hok) as [-> | [-> | [-> | [Hs Hn]]]];
    try reflexivity.
  rewrite Hs. apply parse_number; assumption.
Qed.

Lemma float_head repr :
  float_ok float_canon repr = true ->
  exists c t, floatstr repr = String c t /\ opens_value c = true.
Proof.
  intros Hok.
  destruct (float_ok_cases repr Hok) as [-> | [-> | [-> | [Hs Hn]]]];
    try (eexists _, _; split; reflexivity).
  rewrite Hs. destruct (scan_number_head _ _ _ Hn) as (c & t & -> & Hc).
  exists c, t. split; [reflexivity |]. apply opens_number_facts, Hc.
Qed.

Lemma int_head n : exists c t, print_int n = String c t /\ opens_value c = true.
Proof.
  destruct (scan_number_head _ _ _ (scan_print_int n)) as (c & t & -> & Hc).
  exists c, t. split; [reflexivity |]. apply opens_number_facts, Hc.
Qed.

(** Every text [dumps] writes begins with a character that opens a value. *)
Lemma dumps_head v text :
  dumps v = Some text -> json_native float_canon v = true ->
  exists c t, text = String c t /\ opens_value c = true.
Proof.
  destruct v as [| [] | n | repr | s | items | items | items]; simpl; intros H Hn.
  all: try discriminate.
  all: try (destruct (join_texts _); simpl in H; [| discriminate]).
  all: inversion H; subst.
  all: first [ apply int_head | apply float_head, Hn
             | eexists _, _; split; reflexivity ].
Qed.

Lemma skip_ws_head c t : opens_value c = true -> skip_ws (String c t) = String c t.
Proof.
  unfold opens_value. intros H. simpl. destruct (is_ws c); [discriminate | reflexivity].
Qed.

Lemma strip_head c t x :
  opens_value c = true -> x = "]"%char \/ x = "}"%char \/ x = ","%char \/ x = ":"%char ->
  strip_prefix (String x "") (String c t) = None.
Proof.
  unfold opens_value. intros H Hx. simpl.
  destruct (Ascii.eqb_spec x c) as [<- |]; [| reflexivity].
  destruct Hx as [-> | [-> | [-> | ->]]]; discriminate.
Qed.

(** *** Lists and dicts *)

Lemma parse_elements_S f s :
  parse_elements float_canon (S f) s
  = match parse_value float_canon f s with
    | Some (v, rest) =>
        match strip_prefix "]" (skip_ws rest), strip_prefix "," (skip_ws rest) with
        | Some rest', _ => Some ([v], rest')
        | None, Some rest' =>
            match parse_elements float_canon f (skip_ws rest') with
            | Some (vs, rest'') => Some (v :: vs, rest'')
            | None => None
            end
        | None, None => None
        end
    | None => None
    end.
Proof. reflexivity. Qed.

Lemma parse_members_S f s :
  parse_members float_canon (S f) s
  = match strip_prefix (String dquote "") s with
    | Some rest =>
        match scan_string rest with
        | Some (key, rest1) =>
            match strip_prefix ":" (skip_ws rest1) with
            | Some rest2 =>
                match parse_value float_canon f (skip_ws rest2) with
                | Some (v, rest3) =>
                    match strip_prefix "}" (skip_ws rest3),
                          strip_prefix "," (skip_ws rest3) with
                    | Some rest', _ => Some ([(key, v)], rest')
                    | None, Some rest' =>
                        match parse_members float_canon f (skip_ws rest') with
                        | Some (kvs, rest'') => Some ((key, v) :: kvs, rest'')
                        | None => None
                        end
                    | None, None => None
                    end
                | None => None
                end
            | None => None
            end
        | None => None
        end
    | None => None
    end.
Proof. reflexivity. Qed.

Lemma parse_list_S f rest :
  parse_value float_canon (S f) (String "[" rest)
  = match strip_prefix "]" (skip_ws rest) with
    | Some rest' => Some (PList [], rest')
    | None =>
        match parse_elements float_canon f (skip_ws rest) with
        | Some (items, rest') => Some (PList items, rest')
        | None => None
        end
    end.
Proof. reflexivity. Qed.

Lemma parse_dict_S f rest :
  parse_value float_canon (S f) (String "{" rest)
  = match strip_prefix "}" (skip_ws rest) with
    | Some rest' => Some (PDict [], rest')
    | None =>
        match parse_members float_canon f (skip_ws rest) with
        | Some (pairs, rest') => Some (PDict (dict_of_pairs pairs), rest')
        | None => None
        end
    end.
Proof. reflexivity. Qed.

Lemma join_texts_more (x y : option string) (parts : list (option string)) :
  join_texts (x :: y :: parts)
  = match x, join_texts (y :: parts) with
    | Some a, Some b => Some (a +:+ ", " +:+ b)
    | _, _ => None
    end.
Proof. reflexivity. Qed.

Lemma join_head (parts : list (option string)) body x :
  join_texts (x :: parts) = Some body ->
  exists a, x = Some a /\ exists tail, body = a +:+ tail.
Proof.
  simpl. destruct parts as [| y parts].
  - intros ->. exists body. split; [reflexivity |]. exists "". rewrite append_nil_r. reflexivity.
  - destruct x as [a |]; [| discriminate].
    destruct (join_texts (y :: parts)) as [b |]; [| discriminate].
    intros H. inversion H; subst. eauto.
Qed.

Lemma skip_ws_text (b tail : string) :
  (exists c t, b = String c t /\ opens_value c = true) ->
  skip_ws (b +:+ tail) = b +:+ tail.
Proof. intros (c & t & -> & Hc). rewrite append_cons. apply skip_ws_head, Hc. Qed.

Lemma strip_text (b tail : string) x :
  (exists c t, b = String c t /\ opens_value c = true) ->
  x = "]"%char \/ x = "}"%char \/ x = ","%char \/ x = ":"%char ->
  strip_prefix (String x "") (b +:+ tail) = None.
Proof. intros (c & t & -> & Hc) Hx. rewrite append_cons. apply strip_head; assumption. Qed.

Lemma elements_head y items b :
  join_texts (map dumps (y :: items)) = Some b ->
  json_native float_canon y = true ->
  exists c t, b = String c t /\ opens_value c = true.
Proof.
  intros Hb Hn. destruct (join_head _ _ _ Hb) as (ty & Hy & tail & ->).
  destruct (dumps_head y ty Hy Hn) as (c & t & -> & Hc).
  exists c, (t +:+ tail). split; [apply append_cons | exact Hc].
Qed.

Lemma reads_elements items :
  Forall (reads float_canon) items -> items <> [] ->
  forall body, join_texts (map dumps items) = Some body ->
  forallb (json_native float_canon) items = true ->
  forall fuel rest, (2 * String.length body + 2 <= fuel)%nat ->
  parse_elements float_canon fuel (body +:+ "]" +:+ rest) = Some (items, rest).
Proof.
  induction 1 as [| x items Hx Hrest IH]; [intros Hne; contradiction Hne; reflexivity |].
  intros _ body Hbody Hnat fuel rest Hfuel.
  simpl in Hnat. apply andb_true_iff in Hnat as [Hnx Hnr].
  destruct fuel as [| f]; [lia |]. rewrite parse_elements_S.
  destruct items as [| y items].
  - simpl in Hbody.
    rewrite (Hx body Hbody Hnx f ("]" +:+ rest)); [reflexivity | simpl; auto | lia].
  - cbn [map] in Hbody. rewrite join_texts_more in Hbody.
    destruct (dumps x) as [a |] eqn:Ea; [| discriminate].
    destruct (join_texts (dumps y :: map dumps items)) as [b |] eqn:Eb; [| discriminate].
    inversion Hbody; subst body. clear Hbody.
    rewrite append_length, append_length in Hfuel. simpl in Hfuel.
    rewrite !append_assoc.
    rewrite (Hx a Ea Hnx f _); [| simpl; auto | lia].
    change (", " +:+ b +:+ "]" +:+ rest) with (String "," (String " " (b +:+ "]" +:+ rest))).
    cbn [skip_ws is_ws strip_prefix]. simpl.
    pose proof Hnr as Hnr'. simpl in Hnr'. apply andb_true_iff in Hnr' as [Hny _].
    rewrite (skip_ws_text b _ (elements_head _ _ _ Eb Hny)).
    rewrite (IH ltac:(discriminate) _ Eb Hnr); [reflexivity | lia].
Qed.

Lemma member_shape (k a tail : string) :
  (encode_string k +:+ ": " +:+ a) +:+ tail
  = String dquote (escape k +:+ String dquote (String ":" (String " " (a +:+ tail)))).
Proof.
  unfold encode_string. rewrite !append_assoc, append_cons, append_assoc. reflexivity.
Qed.

Lemma members_head (kv : string * pyval) items b :
  join_texts (map (fun kv => member_text (fst kv) (dumps (snd kv))) (kv :: items)) = Some b ->
  exists c t, b = String c t /\ opens_value c = true.
Proof.
  intros Hb. destruct (join_head _ _ _ Hb) as (ty & Hy & tail & ->).
  unfold member_text in Hy. destruct (dumps (snd kv)); [| discriminate].
  inversion Hy; subst ty. unfold encode_string. rewrite !append_cons.
  eexists _, _. split; reflexivity.
Qed.

Lemma reads_members items :
  Forall (fun kv => reads float_canon (snd kv)) items -> items <> [] ->
  forall body,
    join_texts (map (fun kv => member_text (fst kv) (dumps (snd kv))) items) = Some body ->
    forallb (fun kv => json_native float_canon (snd kv)) items = true ->
    forall fuel rest, (2 * String.length body + 2 <= fuel)%nat ->
    parse_members float_canon fuel (body +:+ "}" +:+ rest) = Some (items, rest).
Proof.
  induction 1 as [| [k x] items Hx Hrest IH]; [intros Hne; contradiction Hne; reflexivity |].
  intros _ body Hbody Hnat fuel rest Hfuel.
  pose proof Hnat as Hnat'. simpl in Hnat'. apply andb_true_iff in Hnat' as [Hnx Hnr].
  destruct fuel as [| f]; [lia |]. rewrite parse_members_S.
  simpl in Hx. destruct items as [| y items].
  - simpl in Hbody. unfold member_text in Hbody.
    destruct (dumps x) as [a |] eqn:Ea; [| discriminate].
    inversion Hbody; subst body. clear Hbody.
    rewrite !append_length in Hfuel. simpl in Hfuel.
    rewrite member_shape. cbn [strip_prefix]. rewrite Ascii.eqb_refl, scan_escape.
    cbn [skip_ws is_ws strip_prefix]. simpl.
    rewrite (skip_ws_text a _ (dumps_head x a Ea Hnx)).
    rewrite (Hx a Ea Hnx f _); [reflexivity | simpl; auto | lia].
  - cbn [map] in Hbody. rewrite join_texts_more in Hbody. cbn [fst snd] in Hbody.
    unfold member_text at 1 in Hbody.
    destruct (dumps x) as [a |] eqn:Ea; [| discriminate].
    match type of Hbody with
    | context [join_texts ?l] => destruct (join_texts l) as [b |] eqn:Eb; [| discriminate]
    end.
    inversion Hbody; subst body. clear Hbody.
    rewrite !append_length in Hfuel. simpl in Hfuel.
    rewrite (append_assoc _ (", " +:+ b)), member_shape.
    cbn [strip_prefix]. rewrite Ascii.eqb_refl, scan_escape.
    cbn [skip_ws is_ws strip_prefix]. simpl.
    rewrite (skip_ws_text a _ (dumps_head x a Ea Hnx)).
    rewrite (Hx a Ea Hnx f _); [| simpl; auto | lia].
    rewrite append_assoc.
    change (", " +:+ b +:+ "}" +:+ rest) with (String "," (String " " (b +:+ "}" +:+ rest))).
    cbn [skip_ws is_ws strip_prefix]. simpl.
    rewrite (skip_ws_text b _ (members_head _ _ _ Eb)).
    rewrite (IH ltac:(discriminate) _ Eb Hnr); [reflexivity | lia].
Qed.

(** *** Building the dict *)

Lemma distinct_NoDup (keys : list string) : distinct keys = true -> NoDup keys.
Proof.
  induction keys as [| k rest IH]; simpl; intros H; [constructor |].
  apply andb_true_iff in H as [Hk Hrest]. constructor; [| auto].
  intros Hin. apply negb_true_iff in Hk.
  assert (existsb (String.eqb k) rest = true); [| congruence].
  apply existsb_exists. exists k. split; [| apply String.eqb_refl].
  apply list_elem_of_In, Hin.
Qed.

Lemma dict_set_fresh k v (acc : list (string * pyval)) :
  k ∉ map fst acc -> dict_set k v acc = acc ++ [(k, v)].
Proof.
  induction acc as [| [k' v'] acc IH]; simpl; intros Hk; [reflexivity |].
  destruct (String.eqb_spec k' k) as [-> |].
  - exfalso. apply Hk. left.
  - rewrite IH; [reflexivity |]. intros Hin. apply Hk. right. exact Hin.
Qed.

Lemma dict_of_pairs_from (items : list (string * pyval)) : forall acc,
  NoDup (map fst acc ++ map fst items) ->
  fold_left (fun d kv => dict_set (fst kv) (snd kv) d) items acc = acc ++ items.
Proof.
  induction items as [| [k v] items IH]; intros acc Hnd; simpl.
  - rewrite app_nil_r. reflexivity.
  - simpl in Hnd. rewrite dict_set_fresh.
    + rewrite IH; [rewrite <- app_assoc; reflexivity |].
      rewrite map_app. simpl. rewrite <- app_assoc. exact Hnd.
    + apply NoDup_app in Hnd as (_ & Hdis & _). intros Hin.
      apply (Hdis k Hin). left.
Qed.

Lemma dict_of_pairs_distinct (items : list (string * pyval)) :
  distinct (map fst items) = true -> dict_of_pairs items = items.
Proof.
  intros H. unfold dict_of_pairs. rewrite dict_of_pairs_from; [reflexivity |].
  simpl. apply distinct_NoDup, H.
Qed.

(** *** The round trip *)

Lemma reads_all (v : pyval) : reads float_canon v.
Proof.
  induction v as [| b | n | repr | s | items IH | items IH | items IH]
    using pyval_nested_ind; intros text Ht Hn fuel rest Hrest Hfuel;
    (destruct fuel as [| f]; [lia |]); simpl in Ht.
  - inversion Ht; subst. reflexivity.
  - destruct b; inversion Ht; subst; reflexivity.
  - inversion Ht; subst. apply parse_number; [apply scan_print_int | exact Hrest].
  - inversion Ht; subst. apply parse_float; assumption.
  - inversion Ht; subst. apply parse_encoded_string.
  - destruct (join_texts (map dumps items)) as [body |] eqn:Eb; [| discriminate].
    inversion Ht; subst text. clear Ht.
    rewrite !append_length in Hfuel. simpl in Hfuel.
    change (("[" +:+ body +:+ "]") +:+ rest) with (String "[" ((body +:+ "]") +:+ rest)).
    rewrite append_assoc, parse_list_S.
    destruct items as [| x items].
    + inversion Eb; subst. reflexivity.
    + simpl in Hn. pose proof Hn as Hn'. apply andb_true_iff in Hn' as [Hnx _].
      pose proof (elements_head _ _ _ Eb Hnx) as Hh.
      rewrite (skip_ws_text body _ Hh), (strip_text body _ "]" Hh) by auto.
      rewrite (reads_elements _ IH ltac:(discriminate) _ Eb Hn); [reflexivity | lia].
  - destruct (join_texts _) as [body |] eqn:Eb; [| discriminate].
    inversion Ht; subst text. clear Ht.
    rewrite !append_length in Hfuel. simpl in Hfuel.
    change (("{" +:+ body +:+ "}") +:+ rest) with (String "{" ((body +:+ "}") +:+ rest)).
    rewrite append_assoc, parse_dict_S.
    simpl in Hn. apply andb_true_iff in Hn as [Hd Hn].
    destruct items as [| kv items].
    + inversion Eb; subst. reflexivity.
    + pose proof (members_head _ _ _ Eb) as Hh.
      rewrite (skip_ws_text body _ Hh), (strip_text body _ "}" Hh) by auto.
      rewrite (reads_members _ IH ltac:(discriminate) _ Eb Hn); [| lia].
      rewrite (dict_of_pairs_distinct _ Hd). reflexivity.
  - discriminate.
Qed.

(** What [dumps] writes for a native value, [loads] reads back as that
    value. *)
Lemma loads_dumps (v : pyval) (text : string) :
  dumps v = Some text -> json_native float_canon v = true ->
  loads float_canon text = Some v.
Proof.
  intros Ht Hn. unfold loads.
  destruct (dumps_head v text Ht Hn) as (c & t & E & Hc).
  assert (Hs : skip_ws text = text) by (rewrite E; apply skip_ws_head, Hc).
  rewrite Hs. rewrite <- (append_nil_r text) at 2.
  rewrite (reads_all v text Ht Hn _ ""); [reflexivity | exact I | lia].
Qed.

(** [dumps] raises on no native value. *)
Lemma dumps_native (v : pyval) :
  json_native float_canon v = true -> exists text, dumps v = Some text.
Proof.
  induction v as [| b | n | repr | s | items IH | items IH | items IH]
    using pyval_nested_ind; simpl; intros Hn; eauto.
  - destruct b; eauto.
  - assert (exists body, join_texts (map dumps items) = Some body) as [body ->];
      [| simpl; eauto].
    induction IH as [| x items Hx _ IHl]; [simpl; eauto |].
    simpl in Hn. apply andb_true_iff in Hn as [Hnx Hnr].
    destruct (Hx Hnx) as [a Ha]. destruct (IHl Hnr) as [b Hb].
    destruct items as [| y items]; [simpl; eauto |].
    cbn [map] in *. rewrite join_texts_more, Ha, Hb. eauto.
  - apply andb_true_iff in Hn as [_ Hn].
    match goal with
    | |- context [join_texts ?l] =>
        assert (exists body, join_texts l = Some body) as [body ->]; [| simpl; eauto]
    end.
    induction IH as [| [k x] items Hx _ IHl]; [simpl; eauto |].
    simpl in Hn. apply andb_true_iff in Hn as [Hnx Hnr].
    simpl in Hx. destruct (Hx Hnx) as [a Ha]. destruct (IHl Hnr) as [b Hb].
    destruct items as [| y items]; [simpl; rewrite Ha; simpl; eauto |].
    cbn [map] in *. rewrite join_texts_more. cbn [fst snd]. rewrite Ha, Hb. simpl. eauto.
  - discriminate.
Qed.

End JsonText.

Section SessionUpdate.
Import Py Json Coordinator.




End SessionUpdate.


(** * Further properties *)

(** ** The playback queue under any use *)

Section PlaybackFacts.
Import Audio Playback.

(** X1. Whatever the queue holds, [callback] writes exactly the number of
    samples it was asked for. *)
Theorem callback_writes_every_frame (p : AudioPlayerAsync) (frames : nat) :
  length (fst (callback p frames)) = frames.
Proof.
  destruct (callback_output p frames) as (Ho & _). rewrite Ho.
  rewrite length_app, length_take, repeat_length. lia.
Qed.

(** X2. Two pulls in a row write what one pull of both sizes would have
    written, and leave the same samples in the queue. *)
Theorem callback_twice (p : AudioPlayerAsync) (frames1 frames2 : nat) :
  let first := callback p frames1 in
  let second := callback (snd first) frames2 in
  let both := callback p (frames1 + frames2) in
  fst first ++ fst second = fst both /\
  concat (queue (snd second)) = concat (queue (snd both)).
Proof.
  simpl.
  destruct (callback_output p frames1) as (Ho1 & Hq1 & He1).
  destruct (callback_output (snd (callback p frames1)) frames2) as (Ho2 & Hq2 & _).
  destruct (callback_output p (frames1 + frames2)) as (Ho & Hq & _).
  rewrite Ho1, Ho2, Hq2, Ho, Hq, Hq1. clear Ho1 Ho2 Hq2 Ho Hq.
  set (samples := concat (queue p)) in *.
  split; [| rewrite drop_drop; reflexivity].
  rewrite length_drop.
  destruct (decide (frames1 <= length samples)%nat) as [Hle | Hgt].
  - replace (frames1 - length samples)%nat with 0%nat by lia. simpl.
    rewrite app_nil_r, app_assoc. f_equal.
    + rewrite <- (take_drop frames1 samples) at 3.
      rewrite take_app_ge by (rewrite length_take; lia).
      rewrite length_take. f_equal. f_equal. lia.
    + f_equal. lia.
  - rewrite !take_ge by lia. rewrite drop_ge by lia. rewrite take_nil. simpl.
    rewrite <- app_assoc. f_equal.
    + rewrite take_ge by lia. reflexivity.
    + rewrite <- repeat_app. f_equal. lia.
Qed.

Lemma frombuffer_spec (data : list byte) :
  (forall pcm, frombuffer_int16 data = Some pcm -> length data = (2 * length pcm)%nat) /\
  (frombuffer_int16 data = None <-> Nat.odd (length data) = true).
Proof.
  remember (length data) as n eqn:Hn. revert data Hn.
  induction n as [n IH] using lt_wf_ind. intros data Hn.
  destruct data as [| lo [| hi rest]].
  - simpl in *. subst. split; [intros pcm H; inversion H; reflexivity |].
    split; discriminate.
  - simpl in *. subst. split; [discriminate | split; reflexivity].
  - simpl in Hn. destruct (IH (length rest) ltac:(lia) rest eq_refl) as [H1 H2].
    subst n. cbn [frombuffer_int16].
    destruct (frombuffer_int16 rest) as [c |] eqn:E.
    + split.
      * intros pcm H. inversion H; subst. simpl. rewrite (H1 c eq_refl). lia.
      * split; [discriminate |]. intros Hodd. exfalso.
        change (Nat.odd (S (S (length rest)))) with (Nat.odd (length rest)) in Hodd.
        apply H2 in Hodd. discriminate.
    + split; [discriminate |]. split; [| reflexivity]. intros _.
      change (Nat.odd (S (S (length rest)))) with (Nat.odd (length rest)).
      apply H2. reflexivity.
Qed.

(** X3. [add_data] raises exactly when it is given an odd number of bytes;
    otherwise it appends one chunk of half as many samples at the tail of
    the queue, leaves what was queued in place, and the player is playing. *)
Theorem add_data_wants_whole_samples (p : AudioPlayerAsync) (data : list byte) :
  (add_data p data = None <-> Nat.odd (length data) = true) /\
  (forall p', add_data p data = Some p' ->
     exists pcm,
       queue p' = queue p ++ [pcm] /\ length data = (2 * length pcm)%nat /\
       playing p' = true /\ stream_closed p' = stream_closed p).
Proof.
  destruct (frombuffer_spec data) as [H1 H2]. unfold add_data.
  destruct (frombuffer_int16 data) as [pcm |] eqn:E; split.
  - split; [discriminate |]. intros Hodd. apply H2 in Hodd. discriminate.
  - intros p' H. inversion H; subst p'. exists pcm.
    pose proof (H1 pcm eq_refl) as Hlen.
    simpl. destruct (playing p) eqn:Ep; simpl; rewrite ?Ep; repeat split; auto.
  - split; [intros _; apply H2; reflexivity | reflexivity].
  - discriminate.
Qed.

Lemma add_data_wants_whole_samples_witness :
  add_data new_player [x01; x00; x02] = None /\
  exists pcm, queue (mkPlayer [[1%Z]] true true false) = [] ++ [pcm].
Proof.
  split.
  - apply (proj1 (add_data_wants_whole_samples new_player [x01; x00; x02])). reflexivity.
  - destruct (proj2 (add_data_wants_whole_samples new_player [x01; x00])
                (mkPlayer [[1%Z]] true true false) eq_refl) as (pcm & Hq & _).
    exists pcm. exact Hq.
Defined.

(** X4. After [stop] a pull hears silence only: it writes zeros, as many
    as were asked for, and the queue stays empty; and [stop] on a stopped
    player changes nothing. *)
Theorem stop_then_silence (p : AudioPlayerAsync) (frames : nat) :
  fst (callback (stop p) frames) = repeat 0%Z frames /\
  queue (snd (callback (stop p) frames)) = [] /\
  stop (stop p) = stop p.
Proof.
  destruct (callback_output (stop p) frames) as (Ho & Hq & He).
  simpl in *. rewrite Ho. rewrite take_nil. simpl. rewrite Nat.sub_0_r.
  split; [reflexivity |]. split; [| reflexivity].
  destruct frames as [| n]; [| apply He; lia].
  unfold callback. simp drain. simpl. reflexivity.
Qed.

(** X5. Pushes and pulls in any order: the pulls write as many samples as
    they asked for; and when no pull found the queue short, what the pulls
    wrote, followed by what is left in the queue, is what the queue held at
    first followed by what was pushed, sample for sample. *)
Theorem pushes_and_pulls_keep_order (ops : list Op) :
  forall p outs p' short,
    run p ops = Some (outs, p', short) ->
    length (concat outs) = pulled ops /\
    (short = false ->
     exists chunks,
       decode_all (pushes ops) = Some chunks /\
       concat outs ++ concat (queue p') = concat (queue p) ++ concat chunks).
Proof.
  induction ops as [| [data | frames] rest IH]; intros p outs p' short H; simpl in H.
  - inversion H; subst. split; [reflexivity |]. intros _. exists [].
    simpl. rewrite app_nil_r. auto.
  - destruct (add_data p data) as [p1 |] eqn:E; [| discriminate].
    destruct (IH _ _ _ _ H) as [Hlen Hord]. split; [exact Hlen |].
    intros Hs. destruct (Hord Hs) as (chunks & Hd & Heq).
    destruct (add_data_queue _ _ _ E) as (pcm & Hpcm & Hq).
    exists (pcm :: chunks). simpl. rewrite Hpcm, Hd. split; [reflexivity |].
    rewrite Heq, Hq, concat_app. simpl. rewrite app_nil_r, <- app_assoc. reflexivity.
  - destruct (run (snd (callback p frames)) rest) as [[[outs1 p1] s1] |] eqn:E;
      [| discriminate].
    inversion H; subst outs p' short. clear H.
    destruct (IH _ _ _ _ E) as [Hlen Hord].
    destruct (callback_output p frames) as (Ho & Hq & _).
    split.
    + simpl. rewrite length_app, Hlen, Ho, length_app, length_take, repeat_length. lia.
    + intros Hs. apply orb_false_iff in Hs as [Hshort Hs1].
      apply Nat.ltb_ge in Hshort.
      destruct (Hord Hs1) as (chunks & Hd & Heq).
      exists chunks. split; [exact Hd |].
      simpl. rewrite <- app_assoc, Heq, Hq, Ho.
      replace (frames - _)%nat with 0%nat by lia. simpl.
      rewrite app_nil_r, app_assoc, take_drop. reflexivity.
Qed.

Lemma pushes_and_pulls_keep_order_witness :
  run new_player [Push [x01; x00; x02; x00]; Pull 1; Push [x03; x00]; Pull 2]
  = Some ([[1%Z]; [2%Z; 3%Z]], mkPlayer [] true true false, false) /\
  length (concat [[1%Z]; [2%Z; 3%Z]]) = 3%nat.
Proof.
  split; [reflexivity |].
  exact (proj1 (pushes_and_pulls_keep_order
                  [Push [x01; x00; x02; x00]; Pull 1; Push [x03; x00]; Pull 2]
                  new_player _ _ _ eq_refl)).
Defined.

End PlaybackFacts.

(** ** The receive loop beyond the protocol *)

Section ReceiveMore.
Import Audio Py Receive Turns.

Variable json_loads : string -> option pyval.
Variable b64decode : string -> option (list byte).

Lemma on_frame_finished py_ne (s : ReceiveState) (raw : string) :
  status s = Finished -> on_frame json_loads b64decode py_ne s raw = s.
Proof. intros H. unfold on_frame. rewrite H. reflexivity. Qed.

Lemma run_finished py_ne (s : ReceiveState) (frames : list string) :
  status s = Finished -> run json_loads b64decode py_ne s frames = s.
Proof.
  intros H. induction frames as [| raw rest IH]; [reflexivity |].
  unfold run in *. simpl. rewrite (on_frame_finished _ _ _ H). exact IH.
Qed.

(** X6. A frame that is neither malformed nor of the protocol (it decodes
    to something that is not an object, or carries a delta that is not
    text, or audio that is not base64 of whole samples) ends the loop: the
    error is logged, the player is closed with its queue as it was,
    nothing is printed, and no later frame is looked at. *)
Theorem foreign_frame_ends_the_loop py_ne (s : ReceiveState) (raw : string) :
  status s = Running ->
  classify json_loads b64decode raw = None ->
  let s' := on_frame json_loads b64decode py_ne s raw in
  status s' = Finished /\
  stream_closed (audio_player s') = true /\
  queue (audio_player s') = queue (audio_player s) /\
  stdout s' = stdout s /\
  transcript s' = transcript s /\
  log s' = log s ++ [LogError "Error in audio playback"; LogInfo "Playback done."] /\
  forall rest, run json_loads b64decode py_ne s' rest = s'.
Proof.
  intros Hrun Hk s'.
  assert (Hs' : status s' = Finished /\
                stream_closed (audio_player s') = true /\
                queue (audio_player s') = queue (audio_player s) /\
                stdout s' = stdout s /\
                transcript s' = transcript s /\
                log s' = log s ++ [LogError "Error in audio playback"; LogInfo "Playback done."]).
  { subst s'. unfold on_frame, classify in *. rewrite Hrun.
    destruct (json_loads raw) as [event |]; [| discriminate].
    unfold dispatch.
    destruct (py_get event "type" PNone) as [ty |] eqn:Et.
    2:{ simpl. rewrite <- app_assoc. repeat split. }
    assert (Hd : exists delta, py_get event "delta" (PStr "") = Some delta).
    { destruct event; try discriminate. simpl. eauto. }
    assert (Hi : exists item, py_get event "item_id" PNone = Some item).
    { destruct event; try discriminate. simpl. eauto. }
    destruct Hd as [delta Hd]. destruct Hi as [item Hi]. rewrite Hd in *. rewrite Hi.
    destruct (is_str ty "response.audio.delta").
    { destruct delta as [| | | | d | | |];
        try (destruct (py_ne item (last_audio_item_id s)); simpl;
             rewrite <- app_assoc; repeat split).
      destruct (b64decode d) as [bytes_data |].
      - unfold add_data.
        destruct (frombuffer_int16 bytes_data); [discriminate |].
        destruct (py_ne item (last_audio_item_id s)); simpl;
          rewrite <- app_assoc; repeat split.
      - destruct (py_ne item (last_audio_item_id s)); simpl;
          rewrite <- app_assoc; repeat split. }
    destruct (is_str ty "response.audio_transcript.delta").
    { destruct delta; try discriminate; simpl; rewrite <- app_assoc; repeat split. }
    destruct (is_str ty "response.done"); discriminate. }
  destruct Hs' as (H1 & H2 & H3 & H4 & H5 & H6). repeat split; try assumption.
  intros rest. apply run_finished, H1.
Qed.

(** X7. An event of a type the loop does not know leaves the state as it
    is; a stream gives the same result with such frames or without them. *)
Theorem unknown_events_are_skipped py_ne (s : ReceiveState) (pre post : list string)
    (raw : string) :
  classify json_loads b64decode raw = Some KOther ->
  on_frame json_loads b64decode py_ne s raw = s /\
  run json_loads b64decode py_ne s (pre ++ raw :: post)
  = run json_loads b64decode py_ne s (pre ++ post).
Proof.
  intros Hk.
  assert (Hskip : forall st, on_frame json_loads b64decode py_ne st raw = st).
  { intros st. unfold on_frame, classify in *. destruct (status st); [| reflexivity].
    destruct (json_loads raw) as [event |]; [| discriminate].
    unfold dispatch.
    destruct (py_get event "type" PNone) as [ty |]; [| discriminate].
    destruct (py_get event "delta" (PStr "")) as [delta |]; [| discriminate].
    destruct (is_str ty "response.audio.delta").
    { destruct delta; try discriminate. destruct (b64decode s0); [| discriminate].
      destruct (frombuffer_int16 l); discriminate. }
    destruct (is_str ty "response.audio_transcript.delta").
    { destruct delta; discriminate. }
    destruct (is_str ty "response.done"); [discriminate | reflexivity]. }
  split; [apply Hskip |].
  unfold run. rewrite !fold_left_app. simpl. rewrite Hskip. reflexivity.
Qed.

Ltac same_states :=
  unfold same_but_last, fail, next_turn, logger, set_player, set_last,
         set_transcript, print; simpl; repeat split; congruence.

(** The two states a frame leads to, from states that agree but for
    [last_audio_item_id] and under any two readings of [!=]. *)
Lemma on_frame_same ne1 ne2 (s1 s2 : ReceiveState) (raw : string) :
  same_but_last s1 s2 ->
  same_but_last (on_frame json_loads b64decode ne1 s1 raw)
                (on_frame json_loads b64decode ne2 s2 raw).
Proof.
  intros (Ht & Hp & Ho & Hl & Hs). unfold on_frame. rewrite <- Hs.
  destruct (status s1) eqn:Hrun; [| same_states].
  destruct (json_loads raw) as [event |]; [| same_states].
  unfold dispatch.
  destruct (py_get event "type" PNone) as [ty |]; [| same_states].
  destruct (is_str ty "response.audio.delta").
  { destruct (py_get event "item_id" PNone) as [item |]; [| same_states].
    destruct (py_get event "delta" (PStr "")) as [delta |]; [| same_states].
    destruct (ne1 item (last_audio_item_id s1)), (ne2 item (last_audio_item_id s2));
      destruct delta as [| | | | d | | |]; try same_states;
      (destruct (b64decode d) as [bytes_data |]; [| same_states]);
      simpl; rewrite <- Hp;
      destruct (add_data (audio_player s1) bytes_data); same_states. }
  destruct (is_str ty "response.audio_transcript.delta").
  { destruct (py_get event "delta" (PStr "")) as [[| | | | d | | |] |]; same_states. }
  destruct (is_str ty "response.done"); same_states.
Qed.

(** X8. Item identifiers play no part: whatever [!=] answers when the loop
    compares the identifier of an audio delta with the last one, the
    transcript, the player and its queue, what is printed and logged, and
    whether the loop still runs are the same after any frames. *)
Theorem item_ids_play_no_part ne1 ne2 (frames : list string) (s : ReceiveState) :
  same_but_last (run json_loads b64decode ne1 s frames)
                (run json_loads b64decode ne2 s frames).
Proof.
  assert (H : forall s1 s2, same_but_last s1 s2 ->
            same_but_last (run json_loads b64decode ne1 s1 frames)
                          (run json_loads b64decode ne2 s2 frames)).
  { induction frames as [| raw rest IH]; intros s1 s2 Hs; [exact Hs |].
    unfold run in *. simpl. apply IH, on_frame_same, Hs. }
  apply H, same_but_last_refl.
Qed.

Lemma transcripts_one_turn ks : forall acc,
  within_turn ks = true ->
  transcripts acc (ks ++ [KDone]) = [acc +:+ fragments ks] /\
  pending acc (ks ++ [KDone]) = "".
Proof.
  induction ks as [| k rest IH]; intros acc H; simpl.
  - rewrite append_nil_r. auto.
  - destruct k; simpl in *; try discriminate; try (apply IH; exact H).
    destruct (IH (acc +:+ fragment) H) as [H1 H2].
    rewrite H1, H2, append_assoc. auto.
Qed.

Lemma classify_all_snoc frames raw ks k :
  classify_all json_loads b64decode frames = Some ks ->
  classify json_loads b64decode raw = Some k ->
  classify_all json_loads b64decode (frames ++ [raw]) = Some (ks ++ [k]).
Proof.
  revert ks. induction frames as [| r rest IH]; intros ks H Hk; simpl in *.
  - inversion H; subst. rewrite Hk. reflexivity.
  - destruct (classify json_loads b64decode r) as [k0 |]; [| discriminate].
    destruct (classify_all json_loads b64decode rest) as [ks0 |]; [| discriminate].
    inversion H; subst ks. rewrite (IH ks0 eq_refl Hk). reflexivity.
Qed.

(** X9. One turn: when the frames up to a [response.done] hold no other
    [response.done] and no malformed frame, the loop prints one line at
    the [response.done], made of the transcript it had, followed by the
    text fragments of these frames in order, and starts the next turn
    with an empty transcript. *)
Theorem a_turn_prints_its_fragments py_ne (s : ReceiveState) (frames : list string)
    (done : string) (ks : list Kind) :
  status s = Running ->
  classify_all json_loads b64decode frames = Some ks ->
  within_turn ks = true ->
  classify json_loads b64decode done = Some KDone ->
  let s' := run json_loads b64decode py_ne s (frames ++ [done]) in
  stdout s' = stdout s ++ ["Final Transcript: " +:+ transcript s +:+ fragments ks] /\
  transcript s' = "" /\
  status s' = Running.
Proof.
  intros Hrun Hks Hturn Hdone s'.
  pose proof (classify_all_snoc _ _ _ _ Hks Hdone) as Hall.
  pose proof (run_classified json_loads b64decode py_ne _ s s _ Hrun Hall
                (same_but_last_refl _)) as (Ht & _ & Ho & _ & Hs).
  destruct (expect_fold (ks ++ [KDone]) s) as (E1 & _ & _ & E4 & E5 & _).
  destruct (transcripts_one_turn ks (transcript s) Hturn) as [T1 T2].
  fold s' in Ht, Ho, Hs. rewrite Ht, Ho, Hs, E1, E4, E5, T1, T2. simpl. auto.
Qed.

End ReceiveMore.

Section ReceiveMoreRuns.
Import Audio Py Receive Turns Examples.

Lemma foreign_frame_ends_the_loop_witness :
  status (on_frame json_loads b64decode py_ne initial "[1]") = Finished.
Proof.
  apply (foreign_frame_ends_the_loop json_loads b64decode py_ne initial "[1]");
    vm_compute; reflexivity.
Defined.

Lemma unknown_events_are_skipped_witness :
  run json_loads b64decode py_ne initial
      ([transcript_frame "Hel"] ++ frame (PDict [("type", PStr "session.created")])
         :: [done_frame])
  = run json_loads b64decode py_ne initial ([transcript_frame "Hel"] ++ [done_frame]).
Proof.
  apply (unknown_events_are_skipped json_loads b64decode py_ne initial
           [transcript_frame "Hel"] [done_frame]
           (frame (PDict [("type", PStr "session.created")]))).
  vm_compute. reflexivity.
Defined.

Lemma a_turn_prints_its_fragments_witness :
  stdout (run json_loads b64decode py_ne initial
            ([transcript_frame "Hel"; audio_frame "A" silence_100; transcript_frame "lo"]
             ++ [done_frame]))
  = [] ++ ["Final Transcript: " +:+ "" +:+ "Hello"].
Proof.
  apply (a_turn_prints_its_fragments json_loads b64decode py_ne initial
           [transcript_frame "Hel"; audio_frame "A" silence_100; transcript_frame "lo"]
           done_frame [KText "Hel"; KAudio (repeat 0%Z 100); KText "lo"]);
    vm_compute; reflexivity.
Defined.

End ReceiveMoreRuns.

(** ** The client and its connection, further *)

Section ClientMore.
Import Py Client.

(** *** Failure and success of [connect] *)

(** X10. [connect] returns a connection exactly when the client holds none
    and the model name is not empty; when it raises, the client is left
    as it was and holds no new connection, so that a refused call with an
    empty name does not use up the client's one connection. *)
Theorem connect_fails_without_trace (c : AsyncAzureVoiceLive) (model : string)
    (agent : option string) (request_id : string) :
  ((exists conn, snd (connect c model agent request_id) = inr conn)
   <-> (_connection c = None /\ model <> "")) /\
  (forall e, snd (connect c model agent request_id) = inl e ->
     fst (connect c model agent request_id) = c) /\
  (forall conn, snd (connect c model agent request_id) = inr conn ->
     _connection (fst (connect c model agent request_id)) = Some conn /\
     conn_websocket conn = None).
Proof.
  unfold connect.
  destruct (_connection c) as [held |] eqn:Hc; simpl.
  - split; [split |].
    + intros [conn H]. discriminate.
    + intros [H _]. discriminate.
    + split; [reflexivity | discriminate].
  - destruct (String.eqb_spec model "") as [-> | Hm]; simpl.
    + split; [split |].
      * intros [conn H]. discriminate.
      * intros [_ H]. congruence.
      * split; [reflexivity | discriminate].
    + split; [split |].
      * auto.
      * eauto.
      * split; [discriminate |].
        intros conn H. inversion H; subst. split; reflexivity.
Qed.

(** *** The headers of a connection *)

Lemma headers_request_id c request_id :
  headers c request_id !! "x-ms-client-request-id" = Some (Some request_id).
Proof.
  unfold headers, auth_header.
  destruct (truthy (_token c));
    (rewrite lookup_union_r; [apply lookup_singleton_eq |]);
    apply lookup_singleton_ne; discriminate.
Qed.

Lemma headers_bearer c request_id :
  truthy (_token c) = true ->
  headers c request_id !! "Authorization" = Some (Some ("Bearer " +:+ fmt (_token c))) /\
  headers c request_id !! "api-key" = None.
Proof.
  intros Ht. unfold headers, auth_header. rewrite Ht. split.
  - rewrite lookup_union_l'; [apply lookup_singleton_eq |].
    rewrite lookup_singleton_eq. eauto.
  - apply lookup_union_None. split; apply lookup_singleton_ne; discriminate.
Qed.

Lemma headers_key c request_id :
  truthy (_token c) = false ->
  headers c request_id !! "api-key" = Some (_api_key c) /\
  headers c request_id !! "Authorization" = None.
Proof.
  intros Ht. unfold headers, auth_header. rewrite Ht. split.
  - rewrite lookup_union_l'; [apply lookup_singleton_eq |].
    rewrite lookup_singleton_eq. eauto.
  - apply lookup_union_None. split; apply lookup_singleton_ne; discriminate.
Qed.

Lemma headers_others c request_id name :
  name <> "x-ms-client-request-id" -> name <> "Authorization" -> name <> "api-key" ->
  headers c request_id !! name = None.
Proof.
  intros H1 H2 H3. unfold headers, auth_header.
  destruct (truthy (_token c)); apply lookup_union_None; split;
    apply lookup_singleton_ne; congruence.
Qed.

(** X11. The connection [connect] returns carries the request id, and one
    credential header, never both: [Authorization] with the bearer token
    when the client has a token that is not empty, [api-key] with the
    client's key otherwise; it carries no other header. *)
Theorem connection_carries_one_credential (c : AsyncAzureVoiceLive) (model : string)
    (agent : option string) (request_id : string) (conn : AsyncVoiceLiveConnection) :
  snd (connect c model agent request_id) = inr conn ->
  let h := conn_additional_headers conn in
  h !! "x-ms-client-request-id" = Some (Some request_id) /\
  (if truthy (_token c)
   then h !! "Authorization" = Some (Some ("Bearer " +:+ fmt (_token c))) /\
        h !! "api-key" = None
   else h !! "api-key" = Some (_api_key c) /\ h !! "Authorization" = None) /\
  (forall name, name <> "x-ms-client-request-id" -> name <> "Authorization" ->
     name <> "api-key" -> h !! name = None).
Proof.
  intros H. unfold connect in H.
  destruct (_connection c); [discriminate |].
  destruct (String.eqb model ""); [discriminate |].
  inversion H; subst conn. simpl. split; [apply headers_request_id |]. split.
  - destruct (truthy (_token c)) eqn:Ht; [apply headers_bearer | apply headers_key]; exact Ht.
  - intros name. apply headers_others.
Qed.

(** *** The environment as a fall-back *)

(** X12. [__init__] reads the environment only for what it was not given:
    the endpoint variable when no endpoint is passed, the key variable
    when neither a key nor a token credential is passed.  Two environments
    that agree on the variables so consulted give the same outcome. *)
Theorem environment_is_a_fallback (environ1 environ2 : gmap string string) (a : InitArgs) :
  (azure_endpoint a = None ->
   environ1 !! "AZURE_VOICE_LIVE_ENDPOINT" = environ2 !! "AZURE_VOICE_LIVE_ENDPOINT") ->
  (api_key a = None -> azure_ad_token_credential a = None ->
   environ1 !! "AZURE_VOICE_LIVE_API_KEY" = environ2 !! "AZURE_VOICE_LIVE_API_KEY") ->
  init environ1 a = init environ2 a.
Proof.
  intros He Hk. unfold init.
  assert (E : resolve_endpoint environ1 a = resolve_endpoint environ2 a).
  { unfold resolve_endpoint. destruct (azure_endpoint a); [reflexivity | auto]. }
  assert (K : resolve_api_key environ1 a = resolve_api_key environ2 a).
  { unfold resolve_api_key.
    destruct (api_key a), (azure_ad_token_credential a); auto. }
  rewrite E, K. reflexivity.
Qed.

(** *** A client with an API key *)

(** X13. A client built without a token credential holds a key, passed or
    found in the environment, and asks for no bearer token.  Its
    connection carries that key in the [api-key] header and has no
    [Authorization] header, while the URL still ends with an
    [Authorization] parameter, whose value is the text [Bearer+None]. *)
Theorem key_client_connects_with_key (environ : gmap string string) (a : InitArgs)
    (scopes : list string) (c : AsyncAzureVoiceLive) (model : string)
    (agent : option string) (request_id : string) :
  init environ a = (scopes, inr c) ->
  azure_ad_token_credential a = None ->
  model <> "" ->
  exists key conn,
    resolve_api_key environ a = Some key /\
    ~ In token_scope scopes /\
    snd (connect c model agent request_id) = inr conn /\
    conn_additional_headers conn !! "api-key" = Some (Some key) /\
    conn_additional_headers conn !! "Authorization" = None /\
    exists front, conn_url conn = front +:+ "&Authorization=Bearer+None".
Proof.
  intros Hi Hcred Hm. unfold init in Hi.
  destruct (resolve_endpoint environ a) as [endpoint |]; [| discriminate].
  rewrite Hcred in Hi.
  destruct (resolve_api_key environ a) as [key |] eqn:Hk; [| discriminate].
  rewrite andb_false_r in Hi. inversion Hi; subst scopes c. clear Hi.
  eexists key, _. split; [reflexivity |]. split.
  { unfold scopes_requested. rewrite Hcred. simpl.
    destruct (present (foundry_credential a)); simpl; [| tauto].
    intros [H | []]. discriminate H. }
  split.
  { rewrite connect_makes; [reflexivity | reflexivity | exact Hm]. }
  simpl. split; [| split].
  - apply headers_key. reflexivity.
  - apply headers_key. reflexivity.
  - rewrite to_wss_url. cbn [_token fmt].
    match goal with
    | |- context [?x +:+ "&agent_access_token=" +:+ ?y +:+ _] =>
        exists (x +:+ "&agent_access_token=" +:+ y)
    end.
    rewrite !append_assoc. reflexivity.
Qed.

(** *** Entering and leaving a connection *)

(** X14. Leaving a connection after a successful enter closes the
    websocket once and gives the connection back as it was built; leaving
    once more, or after an enter that failed, closes nothing. *)
Theorem exit_closes_what_enter_opened (c : AsyncVoiceLiveConnection) (handshake : bool) :
  conn_websocket c = None ->
  match aenter handshake c with
  | inr c1 =>
      handshake = true /\ aexit c1 = (c, 1%nat) /\ aexit (fst (aexit c1)) = (c, 0%nat)
  | inl _ => handshake = false /\ aexit c = (c, 0%nat)
  end.
Proof.
  intros H. destruct c as [url h ws]. simpl in H. subst ws.
  destruct handshake; simpl; auto.
Qed.

(** *** The endpoint in the URL *)

Lemma lstrip_slash_blank l : forall rest,
  lstrip_slash l = [] -> lstrip_slash (l ++ rest) = lstrip_slash rest.
Proof.
  induction l as [| x l IH]; intros rest H; [reflexivity |].
  simpl in *. destruct (Ascii.eqb x "/"); [apply IH, H | discriminate].
Qed.

Lemma list_ascii_app (a b : string) :
  list_ascii_of_string (a +:+ b) = list_ascii_of_string a ++ list_ascii_of_string b.
Proof.
  induction a as [| x a IH]; [rewrite append_nil_l; reflexivity |].
  rewrite append_cons. simpl. rewrite IH. reflexivity.
Qed.

Lemma string_of_list_nil l : string_of_list_ascii l = "" -> l = [].
Proof. destruct l; [reflexivity | discriminate]. Qed.

Lemma rstrip_slash_tail (e tail : string) :
  rstrip_slash tail = "" -> rstrip_slash (e +:+ tail) = rstrip_slash e.
Proof.
  unfold rstrip_slash. intros H.
  apply string_of_list_nil in H.
  assert (Hl : lstrip_slash (rev (list_ascii_of_string tail)) = []).
  { rewrite <- (rev_involutive (lstrip_slash _)), H. reflexivity. }
  rewrite list_ascii_app, rev_app_distr, (lstrip_slash_blank _ _ Hl). reflexivity.
Qed.

(** X15. Slashes at the end of the endpoint do not reach the URL: two
    clients whose endpoints differ by a tail made of slashes only connect
    to the same URL. *)
Theorem trailing_slashes_are_dropped (c1 c2 : AsyncAzureVoiceLive) (tail model : string)
    (agent : option string) (request_id : string) :
  rstrip_slash tail = "" ->
  _azure_endpoint c1 = _azure_endpoint c2 +:+ tail ->
  _api_version c1 = _api_version c2 -> _agent_id c1 = _agent_id c2 ->
  _project_name c1 = _project_name c2 ->
  _foundry_token c1 = _foundry_token c2 -> _token c1 = _token c2 ->
  _connection c1 = None -> _connection c2 = None -> model <> "" ->
  exists conn1 conn2,
    snd (connect c1 model agent request_id) = inr conn1 /\
    snd (connect c2 model agent request_id) = inr conn2 /\
    conn_url conn1 = conn_url conn2.
Proof.
  intros Htail He Hv Ha Hp Hf Ht Hc1 Hc2 Hm.
  rewrite !connect_makes by assumption. simpl.
  eexists _, _. split; [reflexivity |]. split; [reflexivity |]. simpl.
  unfold query_url. rewrite He, (rstrip_slash_tail _ _ Htail), Hv, Ha, Hp, Hf, Ht.
  reflexivity.
Qed.

Lemma to_wss_scheme (rest : string) : to_wss ("https://" +:+ rest) = "wss://" +:+ to_wss rest.
Proof.
  unfold to_wss, str_replace.
  change ("https://" +:+ rest)
    with (String "h" (String "t" (String "t" (String "p" (String "s"
            (String ":" (String "/" (String "/" rest)))))))).
  cbn [replace_from].
  change (String "h" (String "t" (String "t" (String "p" (String "s"
            (String ":" (String "/" (String "/" rest))))))))
    with ("https://" +:+ rest).
  rewrite prefix_refl_app. reflexivity.
Qed.

(** X16. An endpoint that, without its trailing slashes, begins with
    [https://] gives a URL that begins with [wss://]. *)
Theorem secure_endpoint_gives_wss (c : AsyncAzureVoiceLive) (host model : string)
    (agent : option string) (request_id : string) (conn : AsyncVoiceLiveConnection) :
  rstrip_slash (_azure_endpoint c) = "https://" +:+ host ->
  snd (connect c model agent request_id) = inr conn ->
  exists rest, conn_url conn = "wss://" +:+ rest.
Proof.
  intros He H. unfold connect in H.
  destruct (_connection c); [discriminate |].
  destruct (String.eqb model ""); [discriminate |].
  inversion H; subst conn. simpl.
  unfold query_url. rewrite He, append_assoc, to_wss_scheme. eauto.
Qed.

End ClientMore.

Section ClientRuns.
Import Py Client Examples.

Lemma connection_carries_one_credential_witness :
  headers sample_client "rid" !! "x-ms-client-request-id" = Some (Some "rid").
Proof.
  exact (proj1 (connection_carries_one_credential sample_client "gpt" None "rid"
                  (mkConnection (to_wss (query_url sample_client "gpt" None))
                                (headers sample_client "rid") None) eq_refl)).
Defined.

Lemma environment_is_a_fallback_witness :
  init ∅ (mkArgs (Some "https://h") None None (Some (fun _ => "tok")) None None None)
  = init {[ "AZURE_VOICE_LIVE_API_KEY" := "k" ]}
         (mkArgs (Some "https://h") None None (Some (fun _ => "tok")) None None None).
Proof.
  apply (environment_is_a_fallback ∅ {[ "AZURE_VOICE_LIVE_API_KEY" := "k" ]}
           (mkArgs (Some "https://h") None None (Some (fun _ => "tok")) None None None));
    simpl; intros; discriminate.
Defined.

Lemma key_client_connects_with_key_witness :
  exists key conn,
    resolve_api_key {[ "AZURE_VOICE_LIVE_API_KEY" := "k" ]}
      (mkArgs (Some "https://h") (Some "v") None None None None None) = Some key /\
    ~ In token_scope [] /\
    snd (connect (mkClient (Some "k") "https://h" None None (Some "v") None None None None None)
                 "gpt" None "rid") = inr conn /\
    conn_additional_headers conn !! "api-key" = Some (Some key) /\
    conn_additional_headers conn !! "Authorization" = None /\
    exists front, conn_url conn = front +:+ "&Authorization=Bearer+None".
Proof.
  apply (key_client_connects_with_key {[ "AZURE_VOICE_LIVE_API_KEY" := "k" ]}
           (mkArgs (Some "https://h") (Some "v") None None None None None)).
  - vm_compute. reflexivity.
  - reflexivity.
  - discriminate.
Defined.

Lemma exit_closes_what_enter_opened_witness :
  aexit (entered (mkConnection "wss://h" ∅ None)) = (mkConnection "wss://h" ∅ None, 1%nat).
Proof.
  exact (proj1 (proj2 (exit_closes_what_enter_opened (mkConnection "wss://h" ∅ None) true
                         eq_refl))).
Defined.

Lemma trailing_slashes_are_dropped_witness :
  exists conn1 conn2,
    snd (connect sample_client "gpt" None "rid") = inr conn1 /\
    snd (connect (mkClient None "https://voice.example" None (Some "asst_1")
                    (Some "2025-05-01-preview") None None None (Some "tok") (Some "ftok"))
                 "gpt" None "rid") = inr conn2 /\
    conn_url conn1 = conn_url conn2.
Proof.
  apply (trailing_slashes_are_dropped sample_client
           (mkClient None "https://voice.example" None (Some "asst_1")
              (Some "2025-05-01-preview") None None None (Some "tok") (Some "ftok"))
           "/" "gpt" None "rid"); try reflexivity.
  discriminate.
Defined.

Lemma secure_endpoint_gives_wss_witness :
  exists rest,
    conn_url (mkConnection (to_wss (query_url sample_client "gpt" None))
                           (headers sample_client "rid") None)
    = "wss://" +:+ rest.
Proof.
  apply (secure_endpoint_gives_wss sample_client "voice.example" "gpt" None "rid").
  - vm_compute. reflexivity.
  - reflexivity.
Defined.

End ClientRuns.

(** ** The voice agent *)

Section VoiceFacts.
Import Py Client.

Lemma truthy_py_or (a b : option string) :
  truthy (Voice.py_or a b) = truthy a || truthy b.
Proof. unfold Voice.py_or. destruct (truthy a) eqn:E; simpl; [exact E | reflexivity]. Qed.

(** X17. [AgentVoice.__init__] prints the agent id it settled on, found or
    not, and only then checks: it builds the object exactly when an
    endpoint and a deployment that are not empty were passed or stand in
    the environment, an empty argument counting as none. *)
Theorem voice_wants_endpoint_and_deployment (environ : gmap string string)
    (a : Voice.InitArgs) :
  fst (Voice.init environ a)
  = ["Using agent_id: "
     +:+ fmt (if truthy (Voice.arg_agent_id a) then Voice.arg_agent_id a
              else environ !! "AZURE_VOICE_LIVE_AGENT_ID")] /\
  ((exists self, snd (Voice.init environ a) = inr self) <->
   (truthy (Voice.arg_endpoint a) || truthy (environ !! "AZURE_VOICE_LIVE_ENDPOINT")) &&
   (truthy (Voice.arg_deployment a) || truthy (environ !! "AZURE_VOICE_LIVE_DEPLOYMENT"))
   = true).
Proof.
  split; [reflexivity |].
  unfold Voice.init. cbn [snd Voice.resolve Voice.endpoint Voice.deployment].
  rewrite !truthy_py_or.
  destruct (truthy (Voice.arg_endpoint a) || truthy (environ !! "AZURE_VOICE_LIVE_ENDPOINT"));
    destruct (truthy (Voice.arg_deployment a)
              || truthy (environ !! "AZURE_VOICE_LIVE_DEPLOYMENT"));
    simpl; split; try discriminate; eauto; intros [self H]; discriminate.
Qed.

(** The connection of an [AgentVoice] that [__init__] has built. *)
Lemma built_voice_opens (environ environ' : gmap string string)
    (a : Voice.InitArgs) (self : Voice.AgentVoice) (credential foundry : Credential)
    (request_id : string) :
  snd (Voice.init environ a) = inr self ->
  exists conn,
    Voice.open_connection environ' self credential foundry request_id = inr conn /\
    conn_websocket conn = None /\
    conn_additional_headers conn !! "x-ms-client-request-id" = Some (Some request_id) /\
    exists front,
      conn_url conn
      = front +:+ "&agent_access_token=" +:+ to_wss (foundry foundry_scope)
        +:+ "&Authorization=Bearer+" +:+ to_wss (credential token_scope).
Proof.
  unfold Voice.init. cbn [snd]. intros H.
  destruct (negb (truthy (Voice.endpoint (Voice.resolve environ a)))
            || negb (truthy (Voice.deployment (Voice.resolve environ a)))) eqn:E;
    [discriminate |].
  injection H as Hself. rewrite Hself in E. clear Hself.
  apply orb_false_iff in E as [He Hd].
  apply negb_false_iff in He, Hd.
  destruct (Voice.endpoint self) as [e |] eqn:Ee; [| discriminate].
  destruct (Voice.deployment self) as [d |] eqn:Ed; [| discriminate].
  simpl in Hd. apply negb_true_iff in Hd.
  assert (Hm : d <> "") by (intros ->; discriminate).
  unfold Voice.open_connection, Voice.client_args. rewrite Ee, Ed.
  unfold init, resolve_endpoint, resolve_api_key.
  cbn [azure_endpoint api_key azure_ad_token_credential truthy present andb snd].
  rewrite connect_makes; [| reflexivity | exact Hm]. cbn [snd].
  eexists. split; [reflexivity |]. cbn [conn_websocket conn_additional_headers conn_url].
  split; [reflexivity |]. split; [apply headers_request_id |].
  rewrite to_wss_url. cbn [_token _foundry_token fmt]. eauto.
Qed.

(** X18. An [AgentVoice] that [__init__] has built always gets its
    connection: when the two credentials deliver their tokens, the client
    is built and [connect] returns, whatever the environment holds by
    then, an API key included.  The connection is not entered yet,
    carries the request id, and its URL ends with the two tokens. *)
Theorem a_built_voice_connects (environ environ' : gmap string string)
    (a : Voice.InitArgs) (self : Voice.AgentVoice) (credential foundry : Credential)
    (request_id : string) :
  snd (Voice.init environ a) = inr self ->
  exists conn,
    Voice.open_connection environ' self credential foundry request_id = inr conn /\
    conn_websocket conn = None /\
    conn_additional_headers conn !! "x-ms-client-request-id" = Some (Some request_id) /\
    exists front,
      conn_url conn
      = front +:+ "&agent_access_token=" +:+ to_wss (foundry foundry_scope)
        +:+ "&Authorization=Bearer+" +:+ to_wss (credential token_scope).
Proof. apply built_voice_opens. Qed.


End VoiceFacts.

Section VoiceRuns.
Import Py Client.

Lemma a_built_voice_connects_witness :
  exists conn,
    Voice.open_connection {[ "AZURE_VOICE_LIVE_API_KEY" := "k" ]}
      (Voice.mkVoice (Some "asst_1") None (Some "https://h") (Some "gpt") None)
      (fun _ => "tok") (fun _ => "ftok") "rid" = inr conn /\
    conn_websocket conn = None /\
    conn_additional_headers conn !! "x-ms-client-request-id" = Some (Some "rid") /\
    exists front,
      conn_url conn
      = front +:+ "&agent_access_token=" +:+ to_wss "ftok"
        +:+ "&Authorization=Bearer+" +:+ to_wss "tok".
Proof.
  apply (a_built_voice_connects
           {[ "AZURE_VOICE_LIVE_ENDPOINT" := "https://h";
              "AZURE_VOICE_LIVE_DEPLOYMENT" := "gpt" ]}
           {[ "AZURE_VOICE_LIVE_API_KEY" := "k" ]}
           (Voice.mkArgs (Some "asst_1") None None None None)).
  vm_compute. reflexivity.
Defined.


End VoiceRuns.

(** ** The capture loop *)

Section CaptureFacts.
Import Py Capture.

Variable b64encode : list byte -> string.

Lemma append_param_dumps (audio : string) :
  exists text, Json.dumps (append_param audio) = Some text.
Proof. apply (dumps_native (fun repr => repr)). reflexivity. Qed.

Lemma append_param_loads float_canon (audio text : string) :
  Json.dumps (append_param audio) = Some text ->
  Json.loads float_canon text = Some (append_param audio).
Proof. intros H. apply loads_dumps; [exact H | reflexivity]. Qed.

(** The three ways of a pass of the loop: nothing to read yet, a frame
    read and sent, or the end of the loop with the frame read last
    dropped. *)
Lemma on_tick_cases (s : CaptureState) (t : Tick) :
  status s = Running ->
  ((available t <? read_size)%nat = true /\ on_tick b64encode s t = s) \/
  (exists data text,
     (available t <? read_size)%nat = false /\ read t = Some data /\ outcome t = Sent /\
     Json.dumps (append_param (b64encode data)) = Some text /\
     on_tick b64encode s t
     = mkCapture (sent s ++ [text]) (device s ++ [Read]) (log s) Running) \/
  ((available t <? read_size)%nat = false /\
   (read t = None \/ outcome t <> Sent) /\
   exists notes,
     on_tick b64encode s t
     = mkCapture (sent s) (device s ++ [Read; Stop; Close])
                 (log s ++ notes ++ [LogInfo "Audio stream closed."]) Ended /\
     notes = match read t, outcome t with
             | Some _, SendFails => [LogError "WebSocket error while sending audio"]
             | Some _, SendCancelled => []
             | _, _ => [LogDebug "Audio stream interrupted."]
             end).
Proof.
  intros Hrun. unfold on_tick. rewrite Hrun.
  destruct (available t <? read_size)%nat; [left; auto | right].
  destruct (read t) as [data |].
  - destruct (append_param_dumps (b64encode data)) as [text Ht]. rewrite Ht.
    destruct (outcome t) eqn:Eo.
    + left. exists data, text. repeat split; solve [reflexivity | exact Ht].
    + right. split; [reflexivity |]. split; [right; discriminate |].
      eexists. split; [| reflexivity].
      unfold finish. simpl. rewrite <- !app_assoc. reflexivity.
    + right. split; [reflexivity |]. split; [right; discriminate |].
      eexists. split; [| reflexivity].
      unfold interrupted, finish. simpl. rewrite <- !app_assoc. reflexivity.
    + right. split; [reflexivity |]. split; [right; discriminate |].
      eexists. split; [| reflexivity].
      unfold finish. simpl. rewrite <- !app_assoc. reflexivity.
  - right. split; [reflexivity |]. split; [left; reflexivity |].
    eexists. split; [| reflexivity].
    unfold interrupted, finish. simpl. rewrite <- !app_assoc. reflexivity.
Qed.

Lemma on_tick_ended (s : CaptureState) (t : Tick) :
  status s = Ended -> on_tick b64encode s t = s.
Proof. intros H. unfold on_tick. rewrite H. reflexivity. Qed.

Lemma run_ended (ticks : list Tick) : forall s,
  status s = Ended -> fold_left (on_tick b64encode) ticks s = s.
Proof.
  induction ticks as [| t rest IH]; intros s H; [reflexivity |].
  simpl. rewrite (on_tick_ended _ _ H). apply IH, H.
Qed.

Lemma repeat_snoc {A} (x : A) (n : nat) : repeat x n ++ [x] = repeat x (S n).
Proof. rewrite <- repeat_cons. reflexivity. Qed.

Lemma calls_read (n : nat) : calls n Running ++ [Read] = calls (S n) Running.
Proof.
  unfold calls. simpl. rewrite !app_nil_r, repeat_snoc. reflexivity.
Qed.

Lemma calls_end (n : nat) : calls n Running ++ [Read; Stop; Close] = calls (S n) Ended.
Proof.
  unfold calls. simpl. rewrite app_nil_r. f_equal.
  change [Read; Stop; Close] with ([Read] ++ [Stop; Close]).
  rewrite app_assoc, repeat_snoc. reflexivity.
Qed.

(** What holds of the device, of the frames sent and of the log after at
    most [bound] passes. *)
Lemma on_tick_keeps (bound : nat) (s : CaptureState) (t : Tick) :
  (exists n, (n <= bound)%nat /\ device s = calls n (status s) /\
     (length (sent s) = n \/ status s = Ended /\ S (length (sent s)) = n) /\
     (status s = Ended -> List.last (log s) (LogInfo "") = LogInfo "Audio stream closed.")) ->
  exists n, (n <= S bound)%nat /\
     device (on_tick b64encode s t) = calls n (status (on_tick b64encode s t)) /\
     (length (sent (on_tick b64encode s t)) = n \/
      status (on_tick b64encode s t) = Ended /\ S (length (sent (on_tick b64encode s t))) = n) /\
     (status (on_tick b64encode s t) = Ended ->
      List.last (log (on_tick b64encode s t)) (LogInfo "") = LogInfo "Audio stream closed.").
Proof.
  intros (n & Hb & Hd & Hn & Hl).
  destruct (status s) eqn:Hs.
  2:{ rewrite (on_tick_ended _ _ Hs), Hs. exists n. repeat split; auto. }
  destruct Hn as [Hn | [Hn _]]; [| discriminate].
  destruct (on_tick_cases s t Hs)
    as [[_ ->] | [(data & text & _ & _ & _ & _ & ->) | (_ & _ & notes & -> & _)]].
  - rewrite Hs. exists n. repeat split; auto.
  - exists (S n). simpl. rewrite Hd, calls_read.
    split; [lia |]. split; [reflexivity |]. split; [| discriminate].
    left. rewrite length_app. simpl. lia.
  - exists (S n). simpl. rewrite Hd, calls_end.
    split; [lia |]. split; [reflexivity |].
    split; [right; split; [reflexivity | lia] |].
    intros _. rewrite !app_assoc. apply last_last.
Qed.

Lemma run_keeps (ticks : list Tick) : forall (bound : nat) (s : CaptureState),
  (exists n, (n <= bound)%nat /\ device s = calls n (status s) /\
     (length (sent s) = n \/ status s = Ended /\ S (length (sent s)) = n) /\
     (status s = Ended -> List.last (log s) (LogInfo "") = LogInfo "Audio stream closed.")) ->
  exists n, (n <= bound + length ticks)%nat /\
     device (fold_left (on_tick b64encode) ticks s)
     = calls n (status (fold_left (on_tick b64encode) ticks s)) /\
     (length (sent (fold_left (on_tick b64encode) ticks s)) = n \/
      status (fold_left (on_tick b64encode) ticks s) = Ended /\
      S (length (sent (fold_left (on_tick b64encode) ticks s))) = n) /\
     (status (fold_left (on_tick b64encode) ticks s) = Ended ->
      List.last (log (fold_left (on_tick b64encode) ticks s)) (LogInfo "")
      = LogInfo "Audio stream closed.").
Proof.
  induction ticks as [| t rest IH]; intros bound s Hs.
  - simpl. rewrite Nat.add_0_r. exact Hs.
  - simpl. replace (bound + S (length rest))%nat with (S bound + length rest)%nat by lia.
    apply IH, on_tick_keeps, Hs.
Qed.

(** X20. Whatever the device delivers and however the sends end, the
    capture starts the input stream once and reads from it until its loop
    ends; it stops and closes the stream once, at the end and not before,
    and then logs that the stream is closed.  While it runs every frame
    read was sent; at the end at most the frame read last is missing. *)
Theorem capture_closes_the_stream_once (started : bool) (ticks : list Tick) :
  let s := listen_and_send_audio b64encode started ticks in
  exists reads,
    (reads <= length ticks)%nat /\
    device s = calls reads (status s) /\
    (length (sent s) = reads \/ status s = Ended /\ S (length (sent s)) = reads) /\
    (status s = Ended -> List.last (log s) (LogInfo "") = LogInfo "Audio stream closed.").
Proof.
  unfold listen_and_send_audio.
  apply (run_keeps ticks 0%nat (begin started)).
  exists 0%nat. destruct started; simpl.
  - repeat split; auto. discriminate.
  - repeat split; auto.
Qed.

(** X21. Every frame the capture sends is a JSON text that reads back as
    an [input_audio_buffer.append] event with an empty event id, whose
    audio is the base64 text of a frame that was read from the device. *)
Theorem sent_frames_read_back (float_canon : string -> string) (started : bool)
    (ticks : list Tick) :
  Forall (fun text => exists data,
            In data (captured ticks) /\
            Json.loads float_canon text = Some (append_param (b64encode data)))
         (sent (listen_and_send_audio b64encode started ticks)).
Proof.
  unfold listen_and_send_audio.
  set (P pool text := exists data, In data pool /\
         Json.loads float_canon text = Some (append_param (b64encode data))).
  assert (H : forall pool s, incl (captured ticks) pool ->
            Forall (P pool) (sent s) ->
            Forall (P pool) (sent (fold_left (on_tick b64encode) ticks s))).
  { intros pool. induction ticks as [| t rest IH]; intros s Hp Hs; [exact Hs |].
    simpl. destruct (status s) eqn:Hrun.
    2:{ rewrite (on_tick_ended _ _ Hrun), run_ended by exact Hrun. exact Hs. }
    simpl in Hp.
    destruct (on_tick_cases s t Hrun)
      as [[Ha E] | [(data & text & Ha & Hr & _ & Ht & E) | (_ & _ & notes & E & _)]].
    - rewrite E. rewrite Ha in Hp. apply IH; assumption.
    - rewrite E. rewrite Ha, Hr in Hp. apply IH.
      + intros x Hx. apply Hp. right. exact Hx.
      + simpl. apply Forall_app. split; [exact Hs |].
        constructor; [| constructor].
        exists data. split; [apply Hp; left; reflexivity |].
        apply append_param_loads, Ht.
    - rewrite E, run_ended by reflexivity. exact Hs. }
  apply H; [apply incl_refl |].
  destruct started; constructor.
Qed.

(** The frames sent on passes that all go well. *)
Lemma smooth_run (ticks : list Tick) : forall s,
  status s = Running -> forallb smooth ticks = true ->
  let s' := fold_left (on_tick b64encode) ticks s in
  status s' = Running /\ log s' = log s /\
  exists texts,
    sent s' = sent s ++ texts /\
    Forall2 (fun text data => Json.dumps (append_param (b64encode data)) = Some text)
            texts (captured ticks).
Proof.
  induction ticks as [| t rest IH]; intros s Hrun Hsm; simpl.
  - split; [exact Hrun |]. split; [reflexivity |].
    exists []. rewrite app_nil_r. split; [reflexivity | constructor].
  - simpl in Hsm. apply andb_true_iff in Hsm as [Ht Hrest].
    destruct (on_tick_cases s t Hrun)
      as [[Ha E] | [(data & text & Ha & Hr & _ & Hd & E) | (Ha & Hbad & _)]].
    + rewrite E, Ha. apply IH; assumption.
    + rewrite E, Ha, Hr.
      destruct (IH (mkCapture (sent s ++ [text]) (device s ++ [Read]) (log s) Running)
                   eq_refl Hrest) as (H1 & H2 & texts & H3 & H4).
      split; [exact H1 |]. split; [exact H2 |].
      exists (text :: texts). split.
      * rewrite H3. simpl. rewrite <- app_assoc. reflexivity.
      * constructor; assumption.
    + unfold smooth in Ht. rewrite Ha in Ht. simpl in Ht.
      destruct Hbad as [Hr | Ho].
      * rewrite Hr in Ht. discriminate.
      * destruct (read t); [| discriminate].
        destruct (outcome t); [contradiction | discriminate ..].
Qed.

(** X22. While every pass goes well, the capture sends one event for each
    frame it reads, in the order read and none twice; it keeps running
    and logs nothing more. *)
Theorem smooth_capture_sends_every_frame (ticks : list Tick) :
  forallb smooth ticks = true ->
  let s := listen_and_send_audio b64encode true ticks in
  status s = Running /\
  log s = [LogInfo "Starting audio stream ..."] /\
  Forall2 (fun text data => Json.dumps (append_param (b64encode data)) = Some text)
          (sent s) (captured ticks).
Proof.
  intros Hsm. unfold listen_and_send_audio.
  destruct (smooth_run ticks (begin true) eq_refl Hsm) as (H1 & H2 & texts & H3 & H4).
  split; [exact H1 |]. split; [exact H2 |].
  rewrite H3. exact H4.
Qed.

(** X23. The first pass that goes wrong, a read or a send that raises or a
    cancellation while sending, ends the capture: the frame of that pass
    is not sent and no later pass sends anything.  A websocket error is
    logged as an error, any other exception as a debug note, a
    cancellation not at all, and the closing of the stream is logged
    last. *)
Theorem capture_ends_at_first_failure (ticks rest : list Tick) (t : Tick) :
  forallb smooth ticks = true ->
  smooth t = false ->
  let s := listen_and_send_audio b64encode true ticks in
  let s' := listen_and_send_audio b64encode true (ticks ++ t :: rest) in
  status s' = Ended /\
  sent s' = sent s /\
  log s' = log s
           ++ match read t, outcome t with
              | Some _, SendFails => [LogError "WebSocket error while sending audio"]
              | Some _, SendCancelled => []
              | _, _ => [LogDebug "Audio stream interrupted."]
              end
           ++ [LogInfo "Audio stream closed."].
Proof.
  intros Hsm Hbad. unfold listen_and_send_audio.
  rewrite fold_left_app. cbn [fold_left].
  destruct (smooth_run ticks (begin true) eq_refl Hsm) as (Hrun & _ & _).
  set (s := fold_left (on_tick b64encode) ticks (begin true)) in *.
  destruct (on_tick_cases s t Hrun)
    as [[Ha _] | [(data & text & Ha & Hr & Ho & _) | (_ & _ & notes & E & Hn)]].
  - unfold smooth in Hbad. rewrite Ha in Hbad. discriminate.
  - unfold smooth in Hbad. rewrite Ha, Hr, Ho in Hbad. discriminate.
  - rewrite E, run_ended by reflexivity. simpl. rewrite Hn. auto.
Qed.

End CaptureFacts.

Section CaptureRuns.
Import Py Capture.

Lemma smooth_capture_sends_every_frame_witness :
  status (listen_and_send_audio (fun _ => "AAAA") true
            [mkTick 100 None Sent; mkTick 480 (Some []) Sent]) = Running.
Proof.
  apply (smooth_capture_sends_every_frame (fun _ => "AAAA")
           [mkTick 100 None Sent; mkTick 480 (Some []) Sent]).
  reflexivity.
Defined.

Lemma capture_ends_at_first_failure_witness :
  status (listen_and_send_audio (fun _ => "AAAA") true
            ([mkTick 480 (Some []) Sent] ++ mkTick 480 (Some []) SendFails
               :: [mkTick 480 (Some []) Sent])) = Ended.
Proof.
  apply (capture_ends_at_first_failure (fun _ => "AAAA")
           [mkTick 480 (Some []) Sent] [mkTick 480 (Some []) Sent]
           (mkTick 480 (Some []) SendFails));
    reflexivity.
Defined.

End CaptureRuns.

(** ** The cancellation watch *)

Section KeyboardFacts.
Import Keyboard.

Lemma lstrip_blank (pad s : string) : blank pad = true -> lstrip (pad +:+ s) = lstrip s.
Proof.
  induction pad as [| c pad IH]; intros H; [rewrite append_nil_l; reflexivity |].
  simpl in H. apply andb_true_iff in H as [Hc Hp].
  rewrite append_cons. simpl. rewrite Hc. apply IH, Hp.
Qed.

Lemma rstrip_blank (pad : string) : blank pad = true -> rstrip pad = "".
Proof.
  induction pad as [| c pad IH]; intros H; [reflexivity |].
  simpl in H. apply andb_true_iff in H as [Hc Hp].
  simpl. rewrite (IH Hp), Hc. reflexivity.
Qed.

Lemma lstrip_split (s : string) : exists pad, blank pad = true /\ s = pad +:+ lstrip s.
Proof.
  induction s as [| c s IH].
  - exists "". split; reflexivity.
  - simpl. destruct (is_space c) eqn:Hc.
    + destruct IH as (pad & Hp & E). exists (String c pad). split.
      * simpl. rewrite Hc, Hp. reflexivity.
      * rewrite append_cons. f_equal. exact E.
    + exists "". split; [reflexivity | rewrite append_nil_l; reflexivity].
Qed.

Lemma rstrip_split (s : string) : exists pad, blank pad = true /\ s = rstrip s +:+ pad.
Proof.
  induction s as [| c s IH].
  - exists "". split; reflexivity.
  - destruct IH as (pad & Hp & E). simpl.
    destruct (rstrip s) as [| d r] eqn:Hr.
    + rewrite append_nil_l in E. subst s.
      destruct (is_space c) eqn:Hc.
      * exists (String c pad). split; [simpl; rewrite Hc, Hp; reflexivity |].
        rewrite append_nil_l. reflexivity.
      * exists pad. split; [exact Hp |]. rewrite append_cons, append_nil_l. reflexivity.
    + exists pad. split; [exact Hp |]. rewrite append_cons. f_equal. exact E.
Qed.

Lemma lower_char_q (c : ascii) :
  lower_char c = "q"%char -> c = "q"%char \/ c = "Q"%char.
Proof.
  destruct c as [[] [] [] [] [] [] [] []]; intros H; vm_compute in H;
    try discriminate H; auto.
Qed.

Lemma lower_q (r : string) : lower r = "q" -> r = "q" \/ r = "Q".
Proof.
  destruct r as [| c r]; [discriminate |]. simpl. intros H.
  injection H as Hc Hr. destruct r; [| discriminate].
  destruct (lower_char_q c Hc) as [-> | ->]; auto.
Qed.

Lemma strip_letter (letter pad1 pad2 : string) :
  letter = "q" \/ letter = "Q" -> blank pad1 = true -> blank pad2 = true ->
  strip (pad1 +:+ letter +:+ pad2) = letter.
Proof.
  intros Hl H1 H2. unfold strip. rewrite (lstrip_blank _ _ H1).
  destruct Hl as [-> | ->]; rewrite append_cons, append_nil_l; simpl;
    rewrite (rstrip_blank _ H2); reflexivity.
Qed.

(** X24. A line makes the watch quit exactly when it is the letter q,
    small or capital, with nothing but white space before and after it. *)
Theorem only_q_quits (user_input : string) :
  quits user_input = true <->
  exists pad1 letter pad2,
    blank pad1 = true /\ blank pad2 = true /\ (letter = "q" \/ letter = "Q") /\
    user_input = pad1 +:+ letter +:+ pad2.
Proof.
  unfold quits. split.
  - intros H. apply String.eqb_eq in H. apply lower_q in H.
    destruct (lstrip_split user_input) as (pad1 & H1 & E1).
    destruct (rstrip_split (lstrip user_input)) as (pad2 & H2 & E2).
    exists pad1, (strip user_input), pad2. repeat split; try assumption.
    unfold strip. rewrite <- E2. exact E1.
  - intros (pad1 & letter & pad2 & H1 & H2 & Hl & ->).
    rewrite (strip_letter _ _ _ Hl H1 H2).
    destruct Hl as [-> | ->]; reflexivity.
Qed.

(** X25. The watch prints its prompt and reads on through lines that do
    not quit, printing nothing for them; at the first line that does, it
    prints that it quits and returns, leaving the lines after it unread. *)
Theorem watch_returns_at_first_q (before : list string) :
  forallb (fun user_input => negb (quits user_input)) before = true ->
  read_keyboard_and_quit before = (["Press 'q' and Enter to quit the chat."], None) /\
  forall user_input after,
    quits user_input = true ->
    read_keyboard_and_quit (before ++ user_input :: after)
    = (["Press 'q' and Enter to quit the chat."; "Quitting the chat..."], Some after).
Proof.
  intros H. unfold read_keyboard_and_quit.
  assert (W : wait_for_quit before = ([], None) /\
              forall tail, wait_for_quit (before ++ tail) = wait_for_quit tail).
  { induction before as [| l rest IH]; [split; reflexivity |].
    simpl in H. apply andb_true_iff in H as [Hl Hrest].
    apply negb_true_iff in Hl. simpl. rewrite Hl. apply IH, Hrest. }
  destruct W as [W1 W2]. split.
  - rewrite W1. reflexivity.
  - intros user_input after Hq. rewrite W2. simpl. rewrite Hq. reflexivity.
Qed.

End KeyboardFacts.

Section KeyboardRuns.
Import Keyboard.

Lemma watch_returns_at_first_q_witness :
  read_keyboard_and_quit ["hello"; "quit"]
  = (["Press 'q' and Enter to quit the chat."], None).
Proof.
  apply (watch_returns_at_first_q ["hello"; "quit"]). reflexivity.
Defined.

End KeyboardRuns.
